(** * A shallow embedding of the Socket.IO relay (server.js, useSocket.js,
      ChatComponent.jsx) and the properties of its presence registry,
      broadcasts, notification delivery and typing debounce. *)

From Stdlib Require Import ZArith String List Lia.
From stdpp Require Import base option list gmap sets strings.

Open Scope string_scope.
Open Scope list_scope.
Open Scope Z_scope.

(** ** JavaScript [Map] with string keys

    A [Map] iterates in insertion order, [set] on a key that is already
    present changes the value where it stands, and [delete] removes the
    key.  The order is observable through [Array.from(m.values())], so the
    map is a list of entries and not a [gmap]. *)
Module JsMap.
Section entries.
Context {V : Type}.

Fixpoint Map_set (k : string) (v : V) (m : list (string * V)) : list (string * V) :=
  match m with
  | [] => [(k, v)]
  | (k', v') :: m' =>
      if decide (k' = k) then (k, v) :: m' else (k', v') :: Map_set k v m'
  end.

Definition Map_delete (k : string) (m : list (string * V)) : list (string * V) :=
  filter (λ e, e.1 ≠ k) m.

Fixpoint Map_get (k : string) (m : list (string * V)) : option V :=
  match m with
  | [] => None
  | (k', v') :: m' => if decide (k' = k) then Some v' else Map_get k m'
  end.

Definition Map_keys (m : list (string * V)) : list string := m.*1.
Definition Map_values (m : list (string * V)) : list V := m.*2.
End entries.
End JsMap.
Import JsMap.

(** ** server.js *)
Module ServerJs.

(** What the handlers read from a socket.  [s_socket] is the value of the
    expression [socket.socket] that the first line of the connection
    handler dereferences: [None] when that property is undefined, [Some i]
    when it is an object whose [id] is [i].  The shape of the library's
    socket object is not part of the repository.  The three claims copied
    from the decoded token are strings. *)
Record Socket := {
  s_id : string;
  s_userId : string;
  s_userName : string;
  s_email : string;
  s_socket : option string
}.

(** The value stored in [activeUsers]. *)
Record UserInfo := {
  u_socketId : string;
  u_userName : string;
  u_email : string;
  u_status : string
}.

Record Message := {
  m_id : Z;
  m_from : string;
  m_fromId : string;
  m_text : string;
  m_timestamp : Z;
  m_avatar : string
}.

Record Notification := {
  n_id : Z;
  n_from : string;
  n_fromId : string;
  n_message : string;
  n_type : string;
  n_timestamp : Z
}.

(** Events the server emits to clients. *)
Inductive Emitted :=
| userConnected (userId userName : string) (activeUsers : list UserInfo)
| messageReceived (message : Message)
| userTyping (userId userName : string) (isTyping : bool)
| notificationReceived (notification : Notification)
| roomEvent (type userName message : string)
| roomMessageReceived (from text : string) (timestamp : Z)
| liveUpdate (from update : string) (timestamp : Z)
| userStatusChanged (userId userName status : string)
| activeUsersList (activeUsers : list UserInfo)
| userDisconnected (userId userName : string) (activeUsers : list UserInfo).

#[global] Instance UserInfo_eq_dec : EqDecision UserInfo.
Proof. solve_decision. Defined.
#[global] Instance Message_eq_dec : EqDecision Message.
Proof. solve_decision. Defined.
#[global] Instance Notification_eq_dec : EqDecision Notification.
Proof. solve_decision. Defined.
#[global] Instance Emitted_eq_dec : EqDecision Emitted.
Proof. solve_decision. Defined.

(** Payloads of the events clients send. *)
Record MessageData := { md_text : string; md_avatar : option string }.
Record TypingData := { td_isTyping : bool; td_roomId : option string }.
Record NotificationData := {
  nd_recipientId : string;
  nd_message : string;
  nd_type : option string
}.
Record RoomData := { rd_roomId : string; rd_text : string }.

(** The mutable state of the server process: the sockets of the default
    namespace in insertion order ([io.sockets.sockets]), the module-level
    [activeUsers] map, the adapter's room index, and the chronological log
    of what has been pushed to which socket id. *)
Record ServerState := {
  sockets : list Socket;
  activeUsers : list (string * UserInfo);
  rooms : gmap string (gset string);
  delivered : list (string * Emitted)
}.

Definition initial : ServerState :=
  {| sockets := []; activeUsers := []; rooms := ∅; delivered := [] |}.

Definition with_sockets (l : list Socket) (st : ServerState) : ServerState :=
  {| sockets := l; activeUsers := activeUsers st;
     rooms := rooms st; delivered := delivered st |}.
Definition with_activeUsers (m : list (string * UserInfo)) (st : ServerState) : ServerState :=
  {| sockets := sockets st; activeUsers := m;
     rooms := rooms st; delivered := delivered st |}.
Definition with_rooms (r : gmap string (gset string)) (st : ServerState) : ServerState :=
  {| sockets := sockets st; activeUsers := activeUsers st;
     rooms := r; delivered := delivered st |}.
Definition push (l : list (string * Emitted)) (st : ServerState) : ServerState :=
  {| sockets := sockets st; activeUsers := activeUsers st;
     rooms := rooms st; delivered := delivered st ++ l |}.

(** *** The library's emitters

    One emit pushes the same event to each selected socket; the recipients
    are listed in table order, which no single client can observe. *)

Definition to_all (ev : Emitted) (l : list Socket) : list (string * Emitted) :=
  (λ k, (s_id k, ev)) <$> l.

(** [io.emit(ev)]: every socket of the namespace. *)
Definition io_emit (ev : Emitted) (st : ServerState) : ServerState :=
  push (to_all ev (sockets st)) st.

(** [socket.emit(ev)]: that socket only. *)
Definition socket_emit (s : Socket) (ev : Emitted) (st : ServerState) : ServerState :=
  push [(s_id s, ev)] st.

Definition members (room : string) (st : ServerState) : gset string :=
  default ∅ (rooms st !! room).

(** [socket.broadcast.emit(ev)]: the broadcast excepts the room named by
    the sender's id, so it goes to every socket of the namespace that is
    not a member of that room.  A socket is put in the room of its own id
    when it connects; the room can be joined and left like any other. *)
Definition socket_broadcast_emit (s : Socket) (ev : Emitted) (st : ServerState) : ServerState :=
  push (to_all ev (filter (λ k, s_id k ∉ members (s_id s) st) (sockets st))) st.

(** [io.to(room).emit(ev)]: the sockets the adapter lists under [room]. *)
Definition io_to_emit (room : string) (ev : Emitted) (st : ServerState) : ServerState :=
  push (to_all ev (filter (λ k, s_id k ∈ members room st) (sockets st))) st.

(** [socket.join(room)] and [socket.leave(room)] on the in-memory adapter;
    a room whose last member leaves is dropped from the index. *)
Definition socket_join (s : Socket) (room : string) (st : ServerState) : ServerState :=
  with_rooms (<[room := {[s_id s]} ∪ members room st]> (rooms st)) st.

Definition without (sid : string) (ms : gset string) : option (gset string) :=
  let ms' := ms ∖ {[sid]} in
  if decide (ms' = ∅) then None else Some ms'.

Definition socket_leave (s : Socket) (room : string) (st : ServerState) : ServerState :=
  match rooms st !! room with
  | None => st
  | Some ms =>
      match without (s_id s) ms with
      | None => with_rooms (delete room (rooms st)) st
      | Some ms' => with_rooms (<[room := ms']> (rooms st)) st
      end
  end.

(** The namespace adds a socket to its table and to the room named by its
    own id before the connection handler runs; on close it takes the socket
    out of every room and out of the table before the disconnect handler
    runs. *)
Definition nsp_add (s : Socket) (st : ServerState) : ServerState :=
  socket_join s (s_id s) (with_sockets (sockets st ++ [s]) st).

Definition nsp_remove (s : Socket) (st : ServerState) : ServerState :=
  with_sockets (filter (λ k, s_id k ≠ s_id s) (sockets st))
    (with_rooms (omap (without (s_id s)) (rooms st)) st).

(** *** The handlers *)

Inductive result (A : Type) :=
| Ok (a : A)
| Throws (e : string).
Arguments Ok {A} a.
Arguments Throws {A} e.

(** [a || b] on a string that may be undefined. *)
Definition js_or (a : option string) (b : string) : string :=
  match a with
  | Some x => if decide (x = "") then b else x
  | None => b
  end.

Definition user_info (s : Socket) : UserInfo :=
  {| u_socketId := s_id s; u_userName := s_userName s;
     u_email := s_email s; u_status := "online" |}.

(** [io.on('connection', ...)], lines 49-65.  The template string of the
    log line reads [socket.socket.id]. *)
Definition on_connection (st : ServerState) (s : Socket) : result ServerState :=
  match s_socket s with
  | None => Throws "TypeError: Cannot read properties of undefined (reading 'id')"
  | Some _ =>
      let st1 := with_activeUsers (Map_set (s_userId s) (user_info s) (activeUsers st)) st in
      Ok (io_emit (userConnected (s_userId s) (s_userName s)
                     (Map_values (activeUsers st1))) st1)
  end.

(** [socket.on('sendMessage', ...)], lines 68-82. *)
Definition make_message (s : Socket) (now date : Z) (messageData : MessageData) : Message :=
  {| m_id := now; m_from := s_userName s; m_fromId := s_userId s;
     m_text := md_text messageData; m_timestamp := date;
     m_avatar := js_or (md_avatar messageData)
                   (String.append "https://i.pravatar.cc/150?img=" (s_userId s)) |}.

Definition on_sendMessage (st : ServerState) (s : Socket) (now date : Z)
    (messageData : MessageData) : ServerState :=
  let message := make_message s now date messageData in
  io_emit (messageReceived message) st.

(** [socket.on('userTyping', ...)], lines 85-92. *)
Definition on_userTyping (st : ServerState) (s : Socket) (data : TypingData) : ServerState :=
  socket_broadcast_emit s
    (userTyping (s_userId s) (s_userName s) (td_isTyping data)) st.

(** [socket.on('sendNotification', ...)], lines 95-114. *)
Definition make_notification (s : Socket) (now date : Z) (data : NotificationData) : Notification :=
  {| n_id := now; n_from := s_userName s; n_fromId := s_userId s;
     n_message := nd_message data; n_type := js_or (nd_type data) "info";
     n_timestamp := date |}.

Definition find_recipient (st : ServerState) (recipientId : string) : option Socket :=
  snd <$> list_find (λ k, s_userId k = recipientId) (sockets st).

Definition on_sendNotification (st : ServerState) (s : Socket) (now date : Z)
    (data : NotificationData) : ServerState :=
  let notification := make_notification s now date data in
  match find_recipient st (nd_recipientId data) with
  | Some recipient => socket_emit recipient (notificationReceived notification) st
  | None => st
  end.

(** [socket.on('joinChatRoom', ...)], lines 117-127. *)
Definition on_joinChatRoom (st : ServerState) (s : Socket) (roomId : string) : ServerState :=
  io_to_emit roomId
    (roomEvent "userJoined" (s_userName s)
       (String.append (s_userName s) " has joined the room"))
    (socket_join s roomId st).

(** [socket.on('roomMessage', ...)], lines 129-138. *)
Definition on_roomMessage (st : ServerState) (s : Socket) (date : Z)
    (roomData : RoomData) : ServerState :=
  io_to_emit (rd_roomId roomData)
    (roomMessageReceived (s_userName s) (rd_text roomData) date) st.

(** [socket.on('leaveChatRoom', ...)], lines 140-149. *)
Definition on_leaveChatRoom (st : ServerState) (s : Socket) (roomId : string) : ServerState :=
  io_to_emit roomId
    (roomEvent "userLeft" (s_userName s)
       (String.append (s_userName s) " has left the room"))
    (socket_leave s roomId st).

(** [socket.on('shareUpdate', ...)], lines 152-159. *)
Definition on_shareUpdate (st : ServerState) (s : Socket) (date : Z)
    (update : string) : ServerState :=
  socket_broadcast_emit s (liveUpdate (s_userName s) update date) st.

(** [socket.on('updateStatus', ...)], lines 162-174. *)
Definition on_updateStatus (st : ServerState) (s : Socket) (status : string) : ServerState :=
  let st1 :=
    match Map_get (s_userId s) (activeUsers st) with
    | Some user =>
        let user' := {| u_socketId := u_socketId user; u_userName := u_userName user;
                        u_email := u_email user; u_status := status |} in
        with_activeUsers (Map_set (s_userId s) user' (activeUsers st)) st
    | None => st
    end in
  io_emit (userStatusChanged (s_userId s) (s_userName s) status) st1.

(** [socket.on('getActiveUsers', ...)], lines 177-179. *)
Definition on_getActiveUsers (st : ServerState) (s : Socket) : ServerState :=
  socket_emit s (activeUsersList (Map_values (activeUsers st))) st.

(** [socket.on('disconnect', ...)], lines 182-193. *)
Definition on_disconnect (st : ServerState) (s : Socket) (reason : string) : ServerState :=
  let st1 := with_activeUsers (Map_delete (s_userId s) (activeUsers st)) st in
  io_emit (userDisconnected (s_userId s) (s_userName s)
             (Map_values (activeUsers st1))) st1.

(** *** Authentication middleware and admission, lines 27-46

    [jwt.decode] belongs to the jsonwebtoken package; it is a parameter
    that yields the claims the middleware reads, or nothing for a token it
    cannot decode. *)
Record Claims := { c_userId : string; c_userName : string; c_email : string }.

(** The socket as the middleware receives it: [socket.id],
    [socket.handshake.auth.token] and [socket.socket]. *)
Record Handshake := {
  h_id : string;
  h_token : option string;
  h_socket : option string
}.

Inductive Next :=
| next_ok (s : Socket)
| next_err (message : string).

Section auth.
Variable jwt_decode : string → option Claims.

Definition auth_middleware (h : Handshake) : Next :=
  match h_token h with
  | None => next_err "Authentication error: No token provided"
  | Some token =>
      if decide (token = "") then next_err "Authentication error: No token provided"
      else
        match jwt_decode token with
        | None => next_err (String.append "Authentication failed: " "Invalid token")
        | Some decoded =>
            next_ok {| s_id := h_id h; s_userId := c_userId decoded;
                       s_userName := c_userName decoded; s_email := c_email decoded;
                       s_socket := h_socket h |}
        end
  end.

(** A connection attempt: the namespace runs the middleware; an error
    passed to [next] refuses the client before the socket enters the
    table, otherwise the socket is added and the connection handler runs.
    An exception escaping the handler is uncaught. *)
Inductive Attempt :=
| Rejected (message : string) (st : ServerState)
| Crashed (e : string)
| Connected (st : ServerState).

Definition connect_attempt (st : ServerState) (h : Handshake) : Attempt :=
  match auth_middleware h with
  | next_err message => Rejected message st
  | next_ok s =>
      match on_connection (nsp_add s st) s with
      | Ok st' => Connected st'
      | Throws e => Crashed e
      end
  end.
End auth.

(** *** The dispatcher: one input is processed to completion before the next *)

(** An event as the handler receives it.  The argument of the five
    handlers that read a property of it is [None] when the client emitted
    the event without one ([undefined]); an argument that is present has
    the fields the handler reads, with the types of the payload records.
    For shareUpdate, [Some update] is the payload [{ update }]. *)
Inductive Incoming :=
| In_sendMessage (now date : Z) (messageData : option MessageData)
| In_userTyping (data : option TypingData)
| In_sendNotification (now date : Z) (data : option NotificationData)
| In_joinChatRoom (roomId : string)
| In_roomMessage (date : Z) (roomData : option RoomData)
| In_leaveChatRoom (roomId : string)
| In_shareUpdate (date : Z) (data : option string)
| In_updateStatus (status : string)
| In_getActiveUsers
| In_error.

(** Reading a property of an argument that is [undefined] throws; the
    argument is not checked before it is read. *)
Definition with_payload {A : Type} (property : string) (payload : option A)
    (body : A → ServerState) : result ServerState :=
  match payload with
  | Some p => Ok (body p)
  | None =>
      Throws (String.append "TypeError: Cannot read properties of undefined (reading '"
                (String.append property "')"))
  end.

Definition handle (st : ServerState) (s : Socket) (e : Incoming) : result ServerState :=
  match e with
  | In_sendMessage now date messageData =>
      with_payload "text" messageData (on_sendMessage st s now date)
  | In_userTyping data =>
      with_payload "isTyping" data (on_userTyping st s)
  | In_sendNotification now date data =>
      with_payload "recipientId" data (on_sendNotification st s now date)
  | In_joinChatRoom roomId => Ok (on_joinChatRoom st s roomId)
  | In_roomMessage date roomData =>
      with_payload "text" roomData (on_roomMessage st s date)
  | In_leaveChatRoom roomId => Ok (on_leaveChatRoom st s roomId)
  | In_shareUpdate date data =>
      with_payload "update" data (on_shareUpdate st s date)
  | In_updateStatus status => Ok (on_updateStatus st s status)
  | In_getActiveUsers => Ok (on_getActiveUsers st s)
  | In_error => Ok st
  end.

Inductive Input :=
| Connection (s : Socket)
| Event (s : Socket) (e : Incoming)
| Disconnect (s : Socket) (reason : string).

#[global] Instance Socket_eq_dec : EqDecision Socket.
Proof. solve_decision. Defined.

Definition ids (st : ServerState) : list string := s_id <$> sockets st.

(** Socket ids are generated fresh; events and disconnects come from
    sockets that are connected; a handler that throws ends the process. *)
Definition step (st : ServerState) (i : Input) : option ServerState :=
  match i with
  | Connection s =>
      if decide (s_id s ∈ ids st) then None
      else match on_connection (nsp_add s st) s with
           | Ok st' => Some st'
           | Throws _ => None
           end
  | Event s e =>
      if decide (s ∈ sockets st)
      then match handle st s e with
           | Ok st' => Some st'
           | Throws _ => None
           end
      else None
  | Disconnect s reason =>
      if decide (s ∈ sockets st)
      then Some (on_disconnect (nsp_remove s st) s reason) else None
  end.

Fixpoint run (st : ServerState) (inputs : list Input) : option ServerState :=
  match inputs with
  | [] => Some st
  | i :: inputs' =>
      match step st i with
      | Some st' => run st' inputs'
      | None => None
      end
  end.

Definition reachable (st : ServerState) : Prop :=
  ∃ inputs, run initial inputs = Some st.

(** What a socket id has been sent, oldest first. *)
Definition inbox (sid : string) (log : list (string * Emitted)) : list Emitted :=
  snd <$> filter (λ d, d.1 = sid) log.

(** What was pushed between an earlier and a later state. *)
Definition emitted_by (st st' : ServerState) : list (string * Emitted) :=
  drop (length (delivered st)) (delivered st').

(** The texts of the chat messages among some events, in order. *)
Definition texts (l : list Emitted) : list string :=
  omap (λ e, match e with messageReceived m => Some (m_text m) | _ => None end) l.

Definition is_notificationReceived (e : Emitted) : bool :=
  match e with notificationReceived _ => true | _ => false end.

(** A sequence of [sendMessage] events, each with its sender, the two clock
    readings and the payload. *)
Definition message_inputs (sends : list (Socket * (Z * Z) * MessageData)) : list Input :=
  (λ x, Event x.1.1 (In_sendMessage x.1.2.1 x.1.2.2 (Some x.2))) <$> sends.

Definition sent_message (x : Socket * (Z * Z) * MessageData) : Message :=
  make_message x.1.1 x.1.2.1 x.1.2.2 x.2.

(** Example connections: one user with two tabs, and two more users. *)
Definition alice_tab1 : Socket :=
  {| s_id := "a1"; s_userId := "alice"; s_userName := "Alice";
     s_email := "alice@example.org"; s_socket := Some "a1" |}.
Definition alice_tab2 : Socket :=
  {| s_id := "a2"; s_userId := "alice"; s_userName := "Alice";
     s_email := "alice@example.org"; s_socket := Some "a2" |}.
Definition bob : Socket :=
  {| s_id := "b1"; s_userId := "bob"; s_userName := "Bob";
     s_email := "bob@example.org"; s_socket := Some "b1" |}.
Definition carol : Socket :=
  {| s_id := "c1"; s_userId := "carol"; s_userName := "Carol";
     s_email := "carol@example.org"; s_socket := Some "c1" |}.

(** Example states: Alice and Bob online; Alice online in two tabs. *)
Definition alice_and_bob : ServerState :=
  default initial (run initial [Connection alice_tab1; Connection bob]).
Definition alice_alone : ServerState :=
  default initial (run initial [Connection alice_tab1]).
Definition alice_twice : ServerState :=
  default initial (run initial [Connection alice_tab1; Connection alice_tab2]).

(** Alice had two tabs and closed the first; Bob is online. *)
Definition alice_closed_first_tab : ServerState :=
  default initial
    (run initial [Connection alice_tab1; Connection alice_tab2; Connection bob;
                  Disconnect alice_tab1 "transport close"]).

(** Alice joined the room "general"; Bob is online and joined nothing. *)
Definition alice_in_general : ServerState :=
  default initial
    (run initial [Connection alice_tab1; Connection bob;
                  Event alice_tab1 (In_joinChatRoom "general")]).

(** Bob joined the room named by the id of Alice's socket. *)
Definition bob_in_alices_room : ServerState :=
  default initial
    (run initial [Connection alice_tab1; Connection bob;
                  Event bob (In_joinChatRoom "a1")]).

(** Alice left the room named by the id of her own socket. *)
Definition alice_left_own_room : ServerState :=
  default initial
    (run initial [Connection alice_tab1; Connection bob;
                  Event alice_tab1 (In_leaveChatRoom "a1")]).

Definition to_alice : NotificationData :=
  {| nd_recipientId := "alice"; nd_message := "ping"; nd_type := None |}.
Definition to_bob : NotificationData :=
  {| nd_recipientId := "bob"; nd_message := "ping"; nd_type := None |}.
Definition typing_in_general : TypingData :=
  {| td_isTyping := true; td_roomId := Some "general" |}.

(** A stand-in for [jwt.decode]: one token decodes, every other does not. *)
Definition mock_decode (token : string) : option Claims :=
  if decide (token = "mock_token_bob")
  then Some {| c_userId := "bob"; c_userName := "Bob"; c_email := "bob@example.org" |}
  else None.

Definition garbage_handshake : Handshake :=
  {| h_id := "x1"; h_token := Some "garbage"; h_socket := Some "x1" |}.

End ServerJs.

(** ** ChatComponent.jsx: the typing indicator *)
Module ChatComponent.

(** [typingTimeoutRef.current] holds a timer handle or null; the browser
    keeps the live timeouts (handle and due time) and hands out fresh
    non-zero handles; [emitted] lists the [isTyping] flag of every
    [userTyping] sent to the server, oldest first. *)
Record Typing := {
  typingTimeoutRef : option positive;
  timers : list (positive * Z);
  next_handle : positive;
  emitted : list bool
}.

Definition idle (st : Typing) : Prop :=
  typingTimeoutRef st = None ∧ timers st = [].

(** [socket?.emit('userTyping', { isTyping })] *)
Definition emit_userTyping (socket : bool) (isTyping : bool) (l : list bool) : list bool :=
  if socket then l ++ [isTyping] else l.

Definition clearTimeout (h : option positive) (ts : list (positive * Z)) : list (positive * Z) :=
  match h with
  | None => ts
  | Some h => filter (λ t, t.1 ≠ h) ts
  end.

(** [handleInputChange], lines 95-112, run at clock reading [now]. *)
Definition handleInputChange (socket : bool) (now : Z) (st : Typing) : Typing :=
  let emitted1 :=
    match typingTimeoutRef st with
    | None => emit_userTyping socket true (emitted st)
    | Some _ => emitted st
    end in
  let timers1 := clearTimeout (typingTimeoutRef st) (timers st) in
  let h := next_handle st in
  {| typingTimeoutRef := Some h;
     timers := timers1 ++ [(h, now + 2000)];
     next_handle := Pos.succ h;
     emitted := emitted1 |}.

(** The callback given to [setTimeout], lines 108-111. *)
Definition timeout_callback (socket : bool) (st : Typing) : Typing :=
  {| typingTimeoutRef := None;
     timers := timers st;
     next_handle := next_handle st;
     emitted := emit_userTyping socket false (emitted st) |}.

(** The browser fires a live timeout: it leaves the timer table and its
    callback runs. *)
Definition fire (socket : bool) (h : positive) (st : Typing) : Typing :=
  timeout_callback socket
    {| typingTimeoutRef := typingTimeoutRef st;
       timers := filter (λ t, t.1 ≠ h) (timers st);
       next_handle := next_handle st;
       emitted := emitted st |}.

(** The clock reaches [t]: every timeout due by then fires, oldest first
    (all delays are equal, so creation order is due order). *)
Definition advance (socket : bool) (t : Z) (st : Typing) : Typing :=
  foldl (λ acc tm, if decide (tm.2 ≤ t) then fire socket tm.1 acc else acc)
        st (timers st).

(** Keystrokes at the given clock readings. *)
Fixpoint keystrokes (socket : bool) (times : list Z) (st : Typing) : Typing :=
  match times with
  | [] => st
  | t :: times' => keystrokes socket times' (handleInputChange socket t (advance socket t st))
  end.

(** The clock readings of a burst that starts at [t0] and whose successive
    gaps are [gaps]. *)
Fixpoint later (t : Z) (gaps : list Z) : list Z :=
  match gaps with
  | [] => []
  | g :: gaps' => (t + g) :: later (t + g) gaps'
  end.

Definition burst (t0 : Z) (gaps : list Z) : list Z := t0 :: later t0 gaps.

Definition last_keystroke (t0 : Z) (gaps : list Z) : Z := foldl Z.add t0 gaps.

(** One countdown is live: the ref holds its handle. *)
Definition armed (st : Typing) (h : positive) (due : Z) (e : list bool) : Prop :=
  typingTimeoutRef st = Some h ∧ timers st = [(h, due)] ∧ emitted st = e.

Definition fresh_component : Typing :=
  {| typingTimeoutRef := None; timers := []; next_handle := 1%positive; emitted := [] |}.

End ChatComponent.

(** ** useSocket.js *)
Module UseSocket.

(** The options handed to [io(SOCKET_URL, ...)], lines 26-35.  The retry
    loop that reads them is the client library's. *)
Record Options := {
  reconnection : bool;
  reconnectionDelay : Z;
  reconnectionDelayMax : Z;
  reconnectionAttempts : Z
}.

Definition options : Options :=
  {| reconnection := true; reconnectionDelay := 1000;
     reconnectionDelayMax := 5000; reconnectionAttempts := 5 |}.

(** The effect body, lines 17-54: a socket is created only when a token is
    present and the ref is still empty. *)
Definition useEffect (token : option string) (socketRef : option Options) : option Options :=
  match token with
  | None => socketRef
  | Some t =>
      if decide (t = "") then socketRef
      else match socketRef with
           | None => Some options
           | Some _ => socketRef
           end
  end.

End UseSocket.

(** ** server.js: the REST endpoints and the state of the room index *)
Module ServerRest.
Import ServerJs.

(** [GET /api/health], lines 202-204: the status line and [activeUsers.size]. *)
Definition api_health (st : ServerState) : string * nat :=
  ("Server running", length (activeUsers st)).

(** [GET /api/active-users], lines 206-208. *)
Definition api_active_users (st : ServerState) : list UserInfo :=
  Map_values (activeUsers st).

(** The room index lists connected sockets only and keeps no empty room. *)
Record rooms_consistent (st : ServerState) : Prop := {
  members_connected : ∀ room sid, sid ∈ members room st → sid ∈ ids st;
  rooms_nonempty : ∀ room ms, rooms st !! room = Some ms → ms ≠ ∅
}.

(** No socket with this id connects during these inputs. *)
Definition never_connects (sid : string) (inputs : list Input) : Prop :=
  ∀ s, Connection s ∈ inputs → s_id s ≠ sid.

(** A registry entry carries the id, name and email of this socket. *)
Definition entry_of (k : Socket) (info : UserInfo) : Prop :=
  u_socketId info = s_id k ∧ u_userName info = s_userName k ∧ u_email info = s_email k.

End ServerRest.

(** ** test-server.js *)
Module TestServerJs.

Inductive Emitted :=
| welcome (message socketId : string) (timestamp : Z)
| echo_response (received : string) (timestamp : Z)
| broadcast_received (from data : string) (timestamp : Z).

#[global] Instance Emitted_eq_dec : EqDecision Emitted.
Proof. solve_decision. Defined.

(** The connected socket ids, in connection order, and what has been
    pushed to which id. *)
Record State := {
  clients : list string;
  log : list (string * Emitted)
}.

Definition initial : State := {| clients := []; log := [] |}.

(** [io.on('connection', ...)], lines 235-243. *)
Definition on_connection (st : State) (sid : string) (date : Z) : State :=
  {| clients := clients st ++ [sid];
     log := log st ++ [(sid, welcome "Welcome to Socket.IO!" sid date)] |}.

(** [socket.on('echo', ...)], lines 246-252. *)
Definition on_echo (st : State) (sid : string) (date : Z) (data : string) : State :=
  {| clients := clients st;
     log := log st ++ [(sid, echo_response data date)] |}.

(** [socket.on('broadcast_test', ...)], lines 255-262. *)
Definition on_broadcast_test (st : State) (sid : string) (date : Z) (data : string) : State :=
  {| clients := clients st;
     log := log st ++ ((λ c, (c, broadcast_received sid data date)) <$> clients st) |}.

(** [socket.on('disconnect', ...)], lines 264-266, after the namespace has
    dropped the socket. *)
Definition on_disconnect (st : State) (sid : string) : State :=
  {| clients := filter (λ c, c ≠ sid) (clients st); log := log st |}.

Inductive Input :=
| Connection (sid : string) (date : Z)
| Echo (sid : string) (date : Z) (data : string)
| Broadcast (sid : string) (date : Z) (data : string)
| Disconnect (sid : string).

Definition step (st : State) (i : Input) : option State :=
  match i with
  | Connection sid date =>
      if decide (sid ∈ clients st) then None else Some (on_connection st sid date)
  | Echo sid date data =>
      if decide (sid ∈ clients st) then Some (on_echo st sid date data) else None
  | Broadcast sid date data =>
      if decide (sid ∈ clients st) then Some (on_broadcast_test st sid date data) else None
  | Disconnect sid =>
      if decide (sid ∈ clients st) then Some (on_disconnect st sid) else None
  end.

Fixpoint run (st : State) (inputs : list Input) : option State :=
  match inputs with
  | [] => Some st
  | i :: inputs' =>
      match step st i with
      | Some st' => run st' inputs'
      | None => None
      end
  end.

Definition inbox (sid : string) (l : list (string * Emitted)) : list Emitted :=
  snd <$> filter (λ d, d.1 = sid) l.

(** A sequence of echo requests from one socket. *)
Definition echoes (sid : string) (requests : list (Z * string)) : list Input :=
  (λ r, Echo sid r.1 r.2) <$> requests.

End TestServerJs.

(** ** ChatComponent.jsx: listeners, sending and room switching *)
Module ChatClient.
Import ServerJs ChatComponent.

(** What the component emits besides the typing flags, which [c_typing]
    logs. *)
Inductive ClientEmit :=
| emit_sendMessage (messageData : MessageData)
| emit_leaveChatRoom (roomId : string)
| emit_joinChatRoom (roomId : string)
| emit_getActiveUsers.

(** The state of the component: the React state variables, the typing
    ref and timer, and what has been emitted.  [typingUsers] is a [Set]:
    insertion order, no repetition. *)
Record Chat := {
  c_messages : list Message;
  c_inputValue : string;
  c_activeUsers : list UserInfo;
  c_typingUsers : list string;
  c_selectedRoom : option string;
  c_typing : Typing;
  c_outbox : list ClientEmit
}.

(** [new Set([...prev, x])] and [newSet.delete(x)]. *)
Definition Set_add (x : string) (l : list string) : list string :=
  if decide (x ∈ l) then l else l ++ [x].
Definition Set_delete (x : string) (l : list string) : list string :=
  filter (λ y, y ≠ x) l.

(** The listeners attached in the effect, lines 35-62; an event without a
    listener is ignored. *)
Definition listen (c : Chat) (e : ServerJs.Emitted) : Chat :=
  match e with
  | messageReceived m =>
      {| c_messages := c_messages c ++ [m]; c_inputValue := c_inputValue c;
         c_activeUsers := c_activeUsers c; c_typingUsers := c_typingUsers c;
         c_selectedRoom := c_selectedRoom c; c_typing := c_typing c;
         c_outbox := c_outbox c |}
  | userTyping userId _ isTyping =>
      {| c_messages := c_messages c; c_inputValue := c_inputValue c;
         c_activeUsers := c_activeUsers c;
         c_typingUsers := if isTyping then Set_add userId (c_typingUsers c)
                          else Set_delete userId (c_typingUsers c);
         c_selectedRoom := c_selectedRoom c; c_typing := c_typing c;
         c_outbox := c_outbox c |}
  | userConnected _ _ activeUsers | userDisconnected _ _ activeUsers =>
      {| c_messages := c_messages c; c_inputValue := c_inputValue c;
         c_activeUsers := activeUsers; c_typingUsers := c_typingUsers c;
         c_selectedRoom := c_selectedRoom c; c_typing := c_typing c;
         c_outbox := c_outbox c |}
  | _ => c
  end.

(** The flag of the last userTyping event about a user, if any. *)
Definition last_typing_flag (u : string) (events : list ServerJs.Emitted) : option bool :=
  last (omap (λ e, match e with
                   | userTyping userId _ isTyping =>
                       if decide (userId = u) then Some isTyping else None
                   | _ => None
                   end) events).

(** [!inputValue.trim()]: the string holds nothing but white space and
    line terminators.  Strings are sequences of code units below 256. *)
Definition is_whitespace (c : Ascii.ascii) : bool :=
  bool_decide (Ascii.nat_of_ascii c ∈ [9; 10; 11; 12; 13; 32; 160]%nat).

Fixpoint is_blank (s : string) : bool :=
  match s with
  | EmptyString => true
  | String c s' => is_whitespace c && is_blank s'
  end.

Definition with_typing (t : Typing) (c : Chat) : Chat :=
  {| c_messages := c_messages c; c_inputValue := c_inputValue c;
     c_activeUsers := c_activeUsers c; c_typingUsers := c_typingUsers c;
     c_selectedRoom := c_selectedRoom c; c_typing := t; c_outbox := c_outbox c |}.

(** [handleSendMessage], lines 77-92. *)
Definition handleSendMessage (socket connected : bool) (userId : string) (c : Chat) : Chat :=
  if is_blank (c_inputValue c) || negb socket || negb connected then c
  else
    {| c_messages := c_messages c;
       c_inputValue := "";
       c_activeUsers := c_activeUsers c;
       c_typingUsers := c_typingUsers c;
       c_selectedRoom := c_selectedRoom c;
       c_typing :=
         {| typingTimeoutRef := typingTimeoutRef (c_typing c);
            timers := timers (c_typing c);
            next_handle := next_handle (c_typing c);
            emitted := emit_userTyping true false (emitted (c_typing c)) |};
       c_outbox := c_outbox c ++
         [emit_sendMessage
            {| md_text := c_inputValue c;
               md_avatar := Some (String.append "https://i.pravatar.cc/150?img=" userId) |}] |}.

(** The [onChange] of the input, lines 95-112, with the new value. *)
Definition onInputChange (socket : bool) (value : string) (now : Z) (c : Chat) : Chat :=
  {| c_messages := c_messages c; c_inputValue := value;
     c_activeUsers := c_activeUsers c; c_typingUsers := c_typingUsers c;
     c_selectedRoom := c_selectedRoom c;
     c_typing := handleInputChange socket now (c_typing c);
     c_outbox := c_outbox c |}.

(** The clock reaches [t]. *)
Definition tick (socket : bool) (t : Z) (c : Chat) : Chat :=
  with_typing (advance socket t (c_typing c)) c.

(** [socket?.emit(...)] *)
Definition emit (socket : bool) (e : ClientEmit) (l : list ClientEmit) : list ClientEmit :=
  if socket then l ++ [e] else l.

(** [handleJoinRoom], lines 115-122. *)
Definition handleJoinRoom (socket : bool) (roomId : string) (c : Chat) : Chat :=
  let outbox1 :=
    match c_selectedRoom c with
    | Some r => if decide (r = "") then c_outbox c else emit socket (emit_leaveChatRoom r) (c_outbox c)
    | None => c_outbox c
    end in
  {| c_messages := [];
     c_inputValue := c_inputValue c;
     c_activeUsers := c_activeUsers c;
     c_typingUsers := c_typingUsers c;
     c_selectedRoom := Some roomId;
     c_typing := c_typing c;
     c_outbox := emit socket (emit_joinChatRoom roomId) outbox1 |}.

(** The room events of an outbox as the server receives them from socket
    [s]. *)
Definition room_inputs (s : Socket) (l : list ClientEmit) : list ServerJs.Input :=
  omap (λ e, match e with
             | emit_leaveChatRoom r => Some (Event s (In_leaveChatRoom r))
             | emit_joinChatRoom r => Some (Event s (In_joinChatRoom r))
             | _ => None
             end) l.

(** Rooms are switched by clicking one room button after another. *)
Definition switch_rooms (socket : bool) (clicks : list string) (c : Chat) : Chat :=
  foldl (λ c r, handleJoinRoom socket r c) c clicks.

(** What was emitted between an earlier and a later state of the component. *)
Definition sent_since (c c' : Chat) : list ClientEmit :=
  drop (length (c_outbox c)) (c_outbox c').

(** The room buttons the component renders, line 153. *)
Definition room_buttons : list string := ["general"; "random"; "tech"].

(** Among the rooms [R], the server lists socket [s] in exactly the room
    the component shows as selected. *)
Definition in_sync (s : Socket) (R : list string) (c : Chat) (st : ServerState) : Prop :=
  ∀ r, r ∈ R → (s_id s ∈ members r st ↔ c_selectedRoom c = Some r).

Definition new_chat : Chat :=
  {| c_messages := []; c_inputValue := ""; c_activeUsers := []; c_typingUsers := [];
     c_selectedRoom := None; c_typing := fresh_component; c_outbox := [] |}.

End ChatClient.

(** ** NotificationComponent.jsx *)
Module NotificationComponent.
Import ServerJs.

(** The list shown, newest first, and the pending auto-remove timeouts:
    due time and the notification id the callback filters out. *)
Record Toasts := {
  notifications : list Notification;
  expiries : list (Z * Z)
}.

Definition no_toasts : Toasts := {| notifications := []; expiries := [] |}.

(** [prev.filter(n => n.id !== id)], lines 29 and 92. *)
Definition remove_id (id : Z) (l : list Notification) : list Notification :=
  filter (λ n, n_id n ≠ id) l.

(** The notificationReceived listener, lines 21-31, at clock reading [now]. *)
Definition on_notificationReceived (now : Z) (notification : Notification) (t : Toasts) : Toasts :=
  {| notifications := notification :: notifications t;
     expiries := expiries t ++ [(now + 5000, n_id notification)] |}.

(** The close button, line 92: the timeout stays pending. *)
Definition dismiss (id : Z) (t : Toasts) : Toasts :=
  {| notifications := remove_id id (notifications t); expiries := expiries t |}.

(** The clock reaches [now]: the timeouts due by then fire, oldest first
    (all delays are equal), and leave the table. *)
Definition expire (now : Z) (t : Toasts) : Toasts :=
  {| notifications :=
       foldl (λ l e, if decide (e.1 ≤ now) then remove_id e.2 l else l)
             (notifications t) (expiries t);
     expiries := filter (λ e, ¬ e.1 ≤ now) (expiries t) |}.

(** What happens to the component: a notification arrives, or the user
    closes the notifications with some id, each at a clock reading. *)
Inductive ToastInput :=
| Arrives (now : Z) (notification : Notification)
| Closes (now : Z) (id : Z).

Fixpoint play (inputs : list ToastInput) (t : Toasts) : Toasts :=
  match inputs with
  | [] => t
  | Arrives now n :: inputs' =>
      play inputs' (on_notificationReceived now n (expire now t))
  | Closes now id :: inputs' =>
      play inputs' (dismiss id (expire now t))
  end.

(** Every notification shown still has a timeout pending for its id. *)
Definition covered (t : Toasts) : Prop :=
  ∀ n, n ∈ notifications t → n_id n ∈ (expiries t).*2.

End NotificationComponent.

(** * Properties *)

(** ** The map *)
Section JsMap_facts.
Context {V : Type}.
Implicit Types (k : string) (v : V) (m : list (string * V)).

Lemma Map_set_fresh k v m :
  k ∉ Map_keys m → Map_set k v m = m ++ [(k, v)].
Proof.
  induction m as [|[k' v'] m IH]; simpl; [done|].
  intros Hk. apply not_elem_of_cons in Hk as [Hne Hk].
  destruct (decide (k' = k)); [congruence|]. by rewrite IH.
Qed.

Lemma Map_keys_set_present k v m :
  k ∈ Map_keys m → Map_keys (Map_set k v m) = Map_keys m.
Proof.
  induction m as [|[k' v'] m IH]; simpl.
  - by intros ?%elem_of_nil.
  - intros Hk. destruct (decide (k' = k)) as [->|Hne]; simpl; [done|].
    apply elem_of_cons in Hk as [?|Hk]; [congruence|].
    f_equal. by apply IH.
Qed.

Lemma Map_keys_set k v m :
  Map_keys (Map_set k v m) =
  if decide (k ∈ Map_keys m) then Map_keys m else Map_keys m ++ [k].
Proof.
  destruct (decide (k ∈ Map_keys m)) as [Hin|Hout].
  - by apply Map_keys_set_present.
  - rewrite Map_set_fresh by done. unfold Map_keys. by rewrite fmap_app.
Qed.

Lemma Map_set_NoDup k v m :
  NoDup (Map_keys m) → NoDup (Map_keys (Map_set k v m)).
Proof.
  intros Hnd. rewrite Map_keys_set. case_decide; [done|].
  apply NoDup_app. split_and!; [done| |apply NoDup_singleton].
  intros x Hx ->%list_elem_of_singleton. done.
Qed.

Lemma Map_get_set k v m : Map_get k (Map_set k v m) = Some v.
Proof.
  induction m as [|[k' v'] m IH]; simpl.
  - by rewrite decide_True.
  - destruct (decide (k' = k)) as [->|Hne]; simpl.
    + by rewrite decide_True.
    + by rewrite decide_False.
Qed.

Lemma Map_get_None k m : Map_get k m = None ↔ k ∉ Map_keys m.
Proof.
  induction m as [|[k' v'] m IH]; simpl.
  - split; [intros _; apply not_elem_of_nil|done].
  - rewrite not_elem_of_cons. destruct (decide (k' = k)) as [->|Hne].
    + split; [done|]. by intros [? _].
    + rewrite IH. split; [|by intros [_ ?]]. intros ?; split; congruence.
Qed.

Lemma Map_keys_delete k k' m :
  k' ∈ Map_keys (Map_delete k m) ↔ k' ≠ k ∧ k' ∈ Map_keys m.
Proof.
  unfold Map_keys, Map_delete. rewrite !list_elem_of_fmap. split.
  - intros ([a b] & -> & [Hne Hin]%list_elem_of_filter). split; [done|].
    by exists (a, b).
  - intros [Hne ([a b] & -> & Hin)]. exists (a, b). split; [done|].
    by apply list_elem_of_filter.
Qed.

Lemma Map_get_delete k m : Map_get k (Map_delete k m) = None.
Proof. apply Map_get_None. rewrite Map_keys_delete. by intros [? _]. Qed.

Lemma Map_delete_absent k m : k ∉ Map_keys m → Map_delete k m = m.
Proof.
  induction m as [|[k' v'] m IH]; [done|].
  intros [Hne Hk]%not_elem_of_cons. unfold Map_delete in *.
  rewrite filter_cons_True by (simpl; intros ->; by apply Hne). by rewrite IH.
Qed.

Lemma Map_delete_set_fresh k v m :
  k ∉ Map_keys m → Map_delete k (Map_set k v m) = m.
Proof.
  intros Hk. rewrite Map_set_fresh by done. unfold Map_delete.
  rewrite filter_app, filter_singleton_False by (simpl; tauto).
  rewrite app_nil_r. by apply Map_delete_absent.
Qed.

Lemma Map_delete_NoDup k m :
  NoDup (Map_keys m) → NoDup (Map_keys (Map_delete k m)).
Proof.
  unfold Map_keys, Map_delete. induction m as [|[k' v'] m IH]; [done|].
  rewrite fmap_cons, NoDup_cons. intros [Hout Hnd].
  destruct (decide (k' = k)) as [->|Hne].
  - rewrite filter_cons_False by (simpl; tauto). by apply IH.
  - rewrite filter_cons_True by done. rewrite fmap_cons, NoDup_cons.
    split; [|by apply IH]. simpl. intros Hin. apply Hout.
    by apply (Map_keys_delete k k' m) in Hin as [_ ?].
Qed.
End JsMap_facts.

(** ** The server *)
Import ServerJs.

Section log_facts.
Implicit Types (l : list Socket) (ev : Emitted) (k s : Socket).

Lemma inbox_app sid (l1 l2 : list (string * Emitted)) :
  inbox sid (l1 ++ l2) = inbox sid l1 ++ inbox sid l2.
Proof. unfold inbox. by rewrite filter_app, fmap_app. Qed.

Lemma inbox_to_all_absent sid ev l :
  sid ∉ s_id <$> l → inbox sid (to_all ev l) = [].
Proof.
  induction l as [|k l IH]; [done|].
  rewrite fmap_cons. intros [Hne Hout]%not_elem_of_cons.
  unfold inbox, to_all in *. rewrite fmap_cons.
  rewrite filter_cons_False by (simpl; congruence). by apply IH.
Qed.

Lemma inbox_to_all_present k ev l :
  NoDup (s_id <$> l) → k ∈ l → inbox (s_id k) (to_all ev l) = [ev].
Proof.
  induction l as [|k' l IH]; [by intros _ ?%elem_of_nil|].
  rewrite fmap_cons, NoDup_cons. intros [Hout Hnd] Hin.
  unfold to_all. rewrite fmap_cons.
  apply elem_of_cons in Hin as [->|Hin].
  - unfold inbox. rewrite filter_cons_True by done.
    rewrite fmap_cons. simpl. f_equal.
    by apply (inbox_to_all_absent (s_id k') ev l).
  - assert (s_id k' ≠ s_id k) as Hne.
    { intros Heq. apply Hout. rewrite Heq. by apply list_elem_of_fmap_2. }
    unfold inbox. rewrite filter_cons_False by done. by apply IH.
Qed.

Lemma ids_inj l k s :
  NoDup (s_id <$> l) → k ∈ l → s ∈ l → s_id k = s_id s → k = s.
Proof.
  induction l as [|x l IH]; [by intros _ ?%elem_of_nil|].
  rewrite fmap_cons, NoDup_cons. intros [Hout Hnd] Hk Hs Heq.
  apply elem_of_cons in Hk as [->|Hk]; apply elem_of_cons in Hs as [->|Hs];
    [done| | |by apply IH].
  - exfalso. apply Hout. rewrite Heq. by apply list_elem_of_fmap_2.
  - exfalso. apply Hout. rewrite <- Heq. by apply list_elem_of_fmap_2.
Qed.
End log_facts.

(** Case analysis on an event whose handler completed. *)
Ltac handler_completed e H :=
  destruct e as [now date [messageData|]|[data|]|now date [data|]|roomId
                |date [roomData|]|roomId|date [update|]|status| |];
  simpl in H; try discriminate H; injection H as <-.

(** Events leave the socket table alone and keep the keys of the registry. *)
Lemma handle_sockets st s e st' : handle st s e = Ok st' → sockets st' = sockets st.
Proof.
  intros H. handler_completed e H; simpl; try done.
  - unfold on_sendNotification. by destruct (find_recipient _ _).
  - unfold on_leaveChatRoom, socket_leave. simpl.
    destruct (rooms st !! roomId); [|done]. by destruct (without _ _).
  - unfold on_updateStatus. by destruct (Map_get _ _).
Qed.

Lemma handle_keys st s e st' :
  handle st s e = Ok st' → Map_keys (activeUsers st') = Map_keys (activeUsers st).
Proof.
  intros H. handler_completed e H; simpl; try done.
  - unfold on_sendNotification. by destruct (find_recipient _ _).
  - unfold on_leaveChatRoom, socket_leave. simpl.
    destruct (rooms st !! roomId); [|done]. by destruct (without _ _).
  - unfold on_updateStatus.
    destruct (Map_get (s_userId s) (activeUsers st)) eqn:Hget; [|done].
    simpl. apply Map_keys_set_present.
    destruct (decide (s_userId s ∈ Map_keys (activeUsers st))); [done|].
    apply Map_get_None in n. congruence.
Qed.

(** What a step does to the socket table and to the registry. *)
Lemma step_connection_inv st s st' :
  step st (Connection s) = Some st' →
  (s_id s ∉ ids st) ∧ is_Some (s_socket s) ∧
  on_connection (nsp_add s st) s = Ok st' ∧
  sockets st' = sockets st ++ [s] ∧
  activeUsers st' = Map_set (s_userId s) (user_info s) (activeUsers st) ∧
  delivered st' = delivered st ++
    to_all (userConnected (s_userId s) (s_userName s) (Map_values (activeUsers st')))
           (sockets st').
Proof.
  unfold step. case_decide; [done|].
  unfold on_connection. destruct (s_socket s) eqn:Hs; [|done].
  intros [= <-]. by split_and!.
Qed.

Lemma step_disconnect_inv st s reason st' :
  step st (Disconnect s reason) = Some st' →
  s ∈ sockets st ∧
  sockets st' = filter (λ k, s_id k ≠ s_id s) (sockets st) ∧
  activeUsers st' = Map_delete (s_userId s) (activeUsers st) ∧
  delivered st' = delivered st ++
    to_all (userDisconnected (s_userId s) (s_userName s) (Map_values (activeUsers st')))
           (sockets st').
Proof. unfold step. case_decide; [|done]. intros [= <-]. by split_and!. Qed.

Lemma step_event_inv st s e st' :
  step st (Event s e) = Some st' → s ∈ sockets st ∧ handle st s e = Ok st'.
Proof.
  unfold step. case_decide; [|done].
  destruct (handle st s e); [|done]. by intros [= <-].
Qed.

(** The invariant of the states the dispatcher can reach: socket ids are
    unique, the registry has one entry per key, and every registered user
    has an open socket. *)
Record consistent (st : ServerState) : Prop := {
  ids_NoDup : NoDup (ids st);
  keys_NoDup : NoDup (Map_keys (activeUsers st));
  registered_connected :
    ∀ u, u ∈ Map_keys (activeUsers st) → ∃ k, k ∈ sockets st ∧ s_userId k = u
}.

Lemma initial_consistent : consistent initial.
Proof.
  split; simpl; [apply NoDup_nil_2 | apply NoDup_nil_2 |].
  by intros u ?%elem_of_nil.
Qed.

Lemma step_consistent st i st' :
  consistent st → step st i = Some st' → consistent st'.
Proof.
  intros [Hids Hkeys Hreg] Hstep. destruct i as [s|s e|s reason].
  - apply step_connection_inv in Hstep as (Hfresh & _ & _ & Hs & Ha & _).
    split.
    + unfold ids. rewrite Hs, fmap_app. apply NoDup_app.
      split_and!; [done| |apply NoDup_singleton].
      intros x Hx ->%list_elem_of_singleton. done.
    + rewrite Ha. by apply Map_set_NoDup.
    + intros u. rewrite Ha, Hs, Map_keys_set. case_decide as Hin.
      * intros (k & ? & ?)%Hreg. exists k. split; [|done].
        apply elem_of_app. by left.
      * intros [(k & ? & ?)%Hreg| ->%list_elem_of_singleton]%elem_of_app.
        -- exists k. split; [|done]. apply elem_of_app. by left.
        -- exists s. split; [|done]. apply elem_of_app. right.
           by apply list_elem_of_singleton.
  - apply step_event_inv in Hstep as [Hin Hok].
    pose proof (handle_sockets _ _ _ _ Hok) as Hsock.
    pose proof (handle_keys _ _ _ _ Hok) as Hk. split.
    + unfold ids. by rewrite Hsock.
    + by rewrite Hk.
    + intros u. rewrite Hk, Hsock. apply Hreg.
  - apply step_disconnect_inv in Hstep as (Hin & Hs & Ha & _). split.
    + unfold ids. rewrite Hs. clear -Hids. unfold ids in Hids.
      induction (sockets st) as [|x l IH]; [done|].
      rewrite fmap_cons, NoDup_cons in Hids. destruct Hids as [Hout Hnd].
      destruct (decide (s_id x ≠ s_id s)).
      * rewrite filter_cons_True by done. rewrite fmap_cons, NoDup_cons.
        split; [|by apply IH]. intros (y & Hy & [_ ?]%list_elem_of_filter)%list_elem_of_fmap.
        apply Hout. rewrite Hy. by apply list_elem_of_fmap_2.
      * rewrite filter_cons_False by done. by apply IH.
    + rewrite Ha. by apply Map_delete_NoDup.
    + intros u. rewrite Ha, Hs. intros [Hne (k & Hk & Hu)%Hreg]%Map_keys_delete.
      exists k. split; [|done]. apply list_elem_of_filter. split; [|done].
      intros Heq. apply Hne. rewrite <- Hu. f_equal.
      by apply (ids_inj (sockets st)).
Qed.

Lemma run_consistent inputs st st' :
  consistent st → run st inputs = Some st' → consistent st'.
Proof.
  revert st. induction inputs as [|i inputs IH]; simpl; intros st Hc.
  - by intros [= <-].
  - destruct (step st i) as [st1|] eqn:Hstep; [|done].
    apply IH. by eapply step_consistent.
Qed.

Lemma reachable_consistent st : reachable st → consistent st.
Proof. intros [inputs Hrun]. eapply run_consistent; [apply initial_consistent|done]. Qed.

Lemma run_app st inputs1 inputs2 :
  run st (inputs1 ++ inputs2) =
  match run st inputs1 with Some st1 => run st1 inputs2 | None => None end.
Proof.
  revert st. induction inputs1 as [|i inputs1 IH]; simpl; intros st; [done|].
  by destruct (step st i).
Qed.

Lemma reachable_run st inputs st' :
  reachable st → run st inputs = Some st' → reachable st'.
Proof.
  intros [inputs0 H0] Hrun. exists (inputs0 ++ inputs).
  rewrite run_app, H0. done.
Qed.

Lemma emitted_by_push st l : emitted_by st (push l st) = l.
Proof. unfold emitted_by. simpl. apply drop_app_length. Qed.

Lemma emitted_by_refl st : emitted_by st st = [].
Proof. unfold emitted_by. apply drop_all. Qed.

Lemma ids_filter_NoDup (P : Socket → Prop) `{∀ k, Decision (P k)} (l : list Socket) :
  NoDup (s_id <$> l) → NoDup (s_id <$> filter P l).
Proof.
  induction l as [|x l IH]; [done|].
  rewrite fmap_cons, NoDup_cons. intros [Hout Hnd].
  destruct (decide (P x)).
  - rewrite filter_cons_True by done. rewrite fmap_cons, NoDup_cons.
    split; [|by apply IH].
    intros (y & Hy & [_ ?]%list_elem_of_filter)%list_elem_of_fmap.
    apply Hout. rewrite Hy. by apply list_elem_of_fmap_2.
  - rewrite filter_cons_False by done. by apply IH.
Qed.

(** One broadcast over a selection of the connected sockets: a selected
    socket finds the event once in its inbox, any other socket not at all. *)
Lemma inbox_to_all_filter (P : Socket → Prop) `{∀ k, Decision (P k)}
    (l : list Socket) (k : Socket) (ev : Emitted) :
  NoDup (s_id <$> l) → k ∈ l →
  inbox (s_id k) (to_all ev (filter P l)) = if decide (P k) then [ev] else [].
Proof.
  intros Hnd Hk. case_decide as HP.
  - apply inbox_to_all_present; [by apply ids_filter_NoDup|].
    by apply list_elem_of_filter.
  - apply inbox_to_all_absent.
    intros (y & Hy & [HPy Hyl]%list_elem_of_filter)%list_elem_of_fmap.
    apply HP. by rewrite (ids_inj l k y).
Qed.

Lemma find_recipient_Some st u r :
  find_recipient st u = Some r → r ∈ sockets st ∧ s_userId r = u.
Proof.
  unfold find_recipient.
  destruct (list_find _ _) as [[i x]|] eqn:Hfind; [|done].
  intros [= <-]. apply list_find_Some in Hfind as (Hi & Hu & _).
  split; [|done]. by eapply list_elem_of_lookup_2.
Qed.

Lemma find_recipient_None st u :
  find_recipient st u = None ↔ ∀ k, k ∈ sockets st → s_userId k ≠ u.
Proof.
  unfold find_recipient. rewrite fmap_None, list_find_None, Forall_forall. done.
Qed.

Lemma texts_app l1 l2 : texts (l1 ++ l2) = texts l1 ++ texts l2.
Proof. unfold texts. apply omap_app. Qed.

Lemma texts_sent sends :
  texts (messageReceived ∘ sent_message <$> sends) = (λ x, md_text x.2) <$> sends.
Proof.
  induction sends as [|x sends IH]; [done|].
  rewrite !fmap_cons, <- IH. reflexivity.
Qed.

(** Closed decidable facts are settled by evaluation. *)
Ltac by_evaluation := apply (bool_decide_unpack _); vm_compute; exact I.

(** ** Chat messages *)

(** C1: a chat message is pushed by [io.emit], whose scope is every
    connected socket.  For a sequence of [sendMessage] events processed by
    the dispatcher, each socket connected at the start receives, appended
    to what it had received before, exactly one [messageReceived] per
    event, in processing order, carrying the sender's text unchanged; a
    socket id that is not connected receives nothing. *)
Theorem sendMessage_once_unchanged_in_order
    (st st' : ServerState) (sends : list (Socket * (Z * Z) * MessageData)) (k : Socket) :
  NoDup (ids st) →
  k ∈ sockets st →
  run st (message_inputs sends) = Some st' →
  inbox (s_id k) (delivered st') =
    inbox (s_id k) (delivered st) ++ (messageReceived ∘ sent_message <$> sends) ∧
  texts (inbox (s_id k) (delivered st')) =
    texts (inbox (s_id k) (delivered st)) ++ ((λ x, md_text x.2) <$> sends) ∧
  (∀ x, m_text (sent_message x) = md_text x.2) ∧
  (∀ sid, sid ∉ ids st → inbox sid (delivered st') = inbox sid (delivered st)).
Proof.
  intros Hnd Hk Hrun.
  assert (inbox (s_id k) (delivered st') =
            inbox (s_id k) (delivered st) ++ (messageReceived ∘ sent_message <$> sends)
          ∧ ∀ sid, sid ∉ ids st → inbox sid (delivered st') = inbox sid (delivered st))
    as [Hin Hout].
  { revert st Hnd Hk Hrun.
    induction sends as [|[[s [now date]] md] sends IH]; intros st Hnd Hk; simpl.
    - intros [= <-]. by rewrite app_nil_r.
    - case_decide as Hs; [|done]. intros Hrun.
      apply IH in Hrun as [Hin Hout]; [|done..]. simpl in *. split.
      + rewrite Hin, inbox_app, <- app_assoc. f_equal.
        by rewrite (inbox_to_all_present k _ (sockets st)).
      + intros sid Hsid. rewrite (Hout sid Hsid), inbox_app.
        rewrite (inbox_to_all_absent sid _ (sockets st)) by done.
        by rewrite app_nil_r. }
  split_and!; [done| |done|done].
  by rewrite Hin, texts_app, texts_sent.
Qed.

Lemma sendMessage_once_unchanged_in_order_witness :
  ∃ st',
    run alice_and_bob
      (message_inputs
         [(alice_tab1, (1, 2), {| md_text := "hi"; md_avatar := None |});
          (bob, (3, 4), {| md_text := "hello"; md_avatar := None |})]) = Some st' ∧
    texts (inbox (s_id bob) (delivered st')) =
      texts (inbox (s_id bob) (delivered alice_and_bob)) ++ ["hi"; "hello"].
Proof.
  eexists. split; [vm_compute; reflexivity|].
  eapply (sendMessage_once_unchanged_in_order alice_and_bob _
            [(alice_tab1, (1, 2), {| md_text := "hi"; md_avatar := None |});
             (bob, (3, 4), {| md_text := "hello"; md_avatar := None |})] bob).
  - by_evaluation.
  - by_evaluation.
  - vm_compute. reflexivity.
Defined.

(** ** The presence registry *)

(** C3, as claimed for every registry state: register then deregister
    restores the snapshot.  It fails when the Identity is already
    registered through another connection: Alice is online in one tab, a
    second tab of hers connects and disconnects, and the snapshot is empty
    although her first tab is still connected. *)
Lemma register_deregister_not_always_restoring :
  ¬ (∀ st s reason st1 st2,
       reachable st →
       step st (Connection s) = Some st1 →
       step st1 (Disconnect s reason) = Some st2 →
       Map_values (activeUsers st2) = Map_values (activeUsers st)).
Proof.
  intros H.
  assert (reachable alice_alone) as Hr.
  { exists [Connection alice_tab1]. vm_compute. reflexivity. }
  assert (∃ st1 st2,
            step alice_alone (Connection alice_tab2) = Some st1 ∧
            step st1 (Disconnect alice_tab2 "transport close") = Some st2 ∧
            Map_values (activeUsers st2) = []) as (st1 & st2 & H1 & H2 & Hv).
  { eexists _, _. split_and!; vm_compute; reflexivity. }
  specialize (H _ _ _ _ _ Hr H1 H2). rewrite Hv in H.
  vm_compute in H. discriminate H.
Qed.

(** C3, amended: when the Identity is not registered, the connection
    handler followed by the disconnect handler restores [activeUsers], and
    so the snapshot; a register never duplicates: the keys stay distinct,
    the entry read back is the new connection's, and for an Identity that
    was already registered the keys and the length of the snapshot do not
    change. *)
Theorem register_deregister_restores_fresh_identity
    (st st1 st2 : ServerState) (s : Socket) (reason : string) :
  NoDup (Map_keys (activeUsers st)) →
  step st (Connection s) = Some st1 →
  step st1 (Disconnect s reason) = Some st2 →
  (s_userId s ∉ Map_keys (activeUsers st) →
     activeUsers st2 = activeUsers st ∧
     Map_values (activeUsers st2) = Map_values (activeUsers st)) ∧
  NoDup (Map_keys (activeUsers st1)) ∧
  Map_get (s_userId s) (activeUsers st1) = Some (user_info s) ∧
  (s_userId s ∈ Map_keys (activeUsers st) →
     Map_keys (activeUsers st1) = Map_keys (activeUsers st) ∧
     length (Map_values (activeUsers st1)) = length (Map_values (activeUsers st))).
Proof.
  intros Hnd (_ & _ & _ & _ & Ha1 & _)%step_connection_inv
         (_ & _ & Ha2 & _)%step_disconnect_inv.
  split_and!.
  - intros Hfresh. rewrite Ha2, Ha1, Map_delete_set_fresh by done. done.
  - rewrite Ha1. by apply Map_set_NoDup.
  - rewrite Ha1. apply Map_get_set.
  - intros Hin. assert (Map_keys (activeUsers st1) = Map_keys (activeUsers st)) as Hk.
    { rewrite Ha1. by apply Map_keys_set_present. }
    split; [done|]. unfold Map_values, Map_keys in *.
    rewrite !length_fmap. rewrite <- (length_fmap fst (activeUsers st1)), Hk.
    by rewrite length_fmap.
Qed.

Lemma register_deregister_restores_fresh_identity_witness :
  let st1 := default initial (step alice_alone (Connection bob)) in
  let st2 := default initial (step st1 (Disconnect bob "transport close")) in
  Map_values (activeUsers st2) = Map_values (activeUsers alice_alone) ∧
  Map_get "bob" (activeUsers st1) = Some (user_info bob).
Proof.
  intros st1 st2.
  destruct (register_deregister_restores_fresh_identity
              alice_alone st1 st2 bob "transport close") as (Hfresh & _ & Hget & _).
  - by_evaluation.
  - vm_compute. reflexivity.
  - vm_compute. reflexivity.
  - split; [|exact Hget]. apply Hfresh. by_evaluation.
Defined.

(** C10: the disconnect handler deletes the entry keyed by the socket's
    userId whatever socketId the entry holds.  When one Identity opens two
    connections the entry names the second; the disconnect of either one
    removes the Identity from the registry and is broadcast as
    userDisconnected to the sockets that remain: the other connection of
    the same Identity, still in the socket table, is sent that event
    exactly once, and the closing connection is sent nothing. *)
Theorem disconnect_deletes_entry_of_identity
    (st st2 : ServerState) (s1 s2 : Socket) (reason : string) :
  s_userId s1 = s_userId s2 →
  run st [Connection s1; Connection s2] = Some st2 →
  (∀ st0 s r, Map_get (s_userId s) (activeUsers (on_disconnect st0 s r)) = None) ∧
  Map_get (s_userId s1) (activeUsers st2) = Some (user_info s2) ∧
  u_socketId (user_info s2) ≠ s_id s1 ∧
  ∀ x other, (x = s1 ∧ other = s2) ∨ (x = s2 ∧ other = s1) →
    ∃ st3, step st2 (Disconnect x reason) = Some st3 ∧
      Map_get (s_userId other) (activeUsers st3) = None ∧
      other ∈ sockets st3 ∧
      delivered st3 = delivered st2 ++
        to_all (userDisconnected (s_userId x) (s_userName x)
                  (Map_values (activeUsers st3))) (sockets st3) ∧
      (s_id other,
       userDisconnected (s_userId x) (s_userName x) (Map_values (activeUsers st3)))
        ∈ emitted_by st2 st3 ∧
      (NoDup (ids st) →
         inbox (s_id other) (emitted_by st2 st3) =
           [userDisconnected (s_userId x) (s_userName x) (Map_values (activeUsers st3))] ∧
         inbox (s_id x) (emitted_by st2 st3) = []).
Proof.
  intros Hu Hrun. cbn [run] in Hrun.
  destruct (step st (Connection s1)) as [st1|] eqn:H1; [|done].
  destruct (step st1 (Connection s2)) as [st2'|] eqn:H2; [|done].
  injection Hrun as ->.
  apply step_connection_inv in H1 as (Hf1 & _ & _ & Hs1 & Ha1 & _).
  apply step_connection_inv in H2 as (Hf2 & _ & _ & Hs2 & Ha2 & _).
  assert (s_id s2 ≠ s_id s1) as Hne.
  { intros Heq. apply Hf2. unfold ids. rewrite Hs1, fmap_app, Heq.
    apply elem_of_app. right. by apply list_elem_of_singleton. }
  assert (s1 ∈ sockets st2 ∧ s2 ∈ sockets st2) as [Hin1 Hin2].
  { rewrite Hs2, Hs1. split.
    - apply elem_of_app. left. apply elem_of_app. right. by apply list_elem_of_singleton.
    - apply elem_of_app. right. by apply list_elem_of_singleton. }
  assert (NoDup (ids st) → NoDup (ids st2)) as Hnd2.
  { intros Hnd. unfold ids in *. rewrite Hs2, fmap_app. apply NoDup_app.
    split_and!; [|by intros y Hy ->%list_elem_of_singleton|apply NoDup_singleton].
    rewrite Hs1, fmap_app. apply NoDup_app.
    split_and!; [done| |apply NoDup_singleton].
    by intros y Hy ->%list_elem_of_singleton. }
  split_and!.
  - intros st0 s r. simpl. apply Map_get_delete.
  - rewrite Ha2, Hu. apply Map_get_set.
  - done.
  - intros x other Hx.
    assert (x ∈ sockets st2 ∧ other ∈ sockets st2 ∧ s_id other ≠ s_id x
            ∧ s_userId other = s_userId x) as (Hx1 & Ho1 & Hox & Huo).
    { destruct Hx as [[-> ->]|[-> ->]]; split_and!; done. }
    set (st3 := on_disconnect (nsp_remove x st2) x reason).
    set (ev := userDisconnected (s_userId x) (s_userName x) (Map_values (activeUsers st3))).
    assert (other ∈ sockets st3) as Ho3.
    { simpl. by apply list_elem_of_filter. }
    assert (emitted_by st2 st3 = to_all ev (sockets st3)) as Hsent.
    { unfold emitted_by. simpl. apply drop_app_length. }
    exists st3. split_and!.
    + unfold step. by rewrite decide_True.
    + simpl. rewrite Huo. apply Map_get_delete.
    + done.
    + done.
    + rewrite Hsent. unfold to_all. apply list_elem_of_fmap. by exists other.
    + intros Hnd. rewrite Hsent.
      assert (NoDup (ids st3)) as Hnd3.
      { unfold ids. simpl. apply ids_filter_NoDup. by apply Hnd2. }
      split.
      * by apply inbox_to_all_present.
      * apply inbox_to_all_absent. simpl.
        by intros (y & Hy & [Hn _]%list_elem_of_filter)%list_elem_of_fmap.
Qed.

Lemma disconnect_deletes_entry_of_identity_witness :
  ∃ st3,
    step alice_twice (Disconnect alice_tab1 "transport close") = Some st3 ∧
    Map_get "alice" (activeUsers st3) = None ∧
    alice_tab2 ∈ sockets st3 ∧
    inbox "a2" (emitted_by alice_twice st3) = [userDisconnected "alice" "Alice" []].
Proof.
  edestruct (disconnect_deletes_entry_of_identity
               initial alice_twice alice_tab1 alice_tab2 "transport close")
    as (_ & _ & _ & H).
  - reflexivity.
  - vm_compute. reflexivity.
  - destruct (H alice_tab1 alice_tab2) as (st3 & Hstep & Hget & Hin & _ & _ & Hinbox).
    + left. split; reflexivity.
    + exists st3. split; [exact Hstep|]. split; [exact Hget|]. split; [exact Hin|].
      destruct Hinbox as [Hother _]; [apply NoDup_nil_2|].
      refine (eq_trans Hother _).
      vm_compute in Hstep. injection Hstep as <-. vm_compute. reflexivity.
Defined.

(** ** Notifications *)

(** C2, as claimed: a recipient absent from the presence registry is
    never sent notificationReceived.  The handler looks the recipient up
    among the connected sockets, not in [activeUsers]: after Alice closed
    the first of two tabs she is no longer in the registry, yet Bob's
    notification reaches her second tab. *)
Lemma notification_reaches_unregistered_identity :
  ¬ (∀ st s now date data,
       reachable st → s ∈ sockets st →
       nd_recipientId data ∉ Map_keys (activeUsers st) →
       ∀ d, d ∈ emitted_by st (on_sendNotification st s now date data) →
            is_notificationReceived d.2 = false).
Proof.
  intros H.
  assert (reachable alice_closed_first_tab) as Hr.
  { exists [Connection alice_tab1; Connection alice_tab2; Connection bob;
            Disconnect alice_tab1 "transport close"]. vm_compute. reflexivity. }
  specialize (H alice_closed_first_tab bob 1 2 to_alice Hr).
  specialize (H ltac:(by_evaluation) ltac:(by_evaluation)).
  specialize (H ("a2", notificationReceived (make_notification bob 1 2 to_alice))).
  specialize (H ltac:(by_evaluation)). discriminate H.
Qed.

Lemma find_recipient_first st u before r after :
  sockets st = before ++ r :: after →
  s_userId r = u →
  (∀ k, k ∈ before → s_userId k ≠ u) →
  find_recipient st u = Some r.
Proof.
  intros Hs Hr Hbefore. unfold find_recipient. rewrite Hs.
  assert (list_find (λ k, s_userId k = u) (before ++ r :: after)
          = Some (length before, r)) as ->; [|done].
  apply list_find_Some. split_and!.
  - by apply list_lookup_middle.
  - done.
  - intros j y Hj Hlt. apply Hbefore.
    rewrite lookup_app_l in Hj by done. by eapply list_elem_of_lookup_2.
Qed.

(** C2, amended: the handler scans the connected sockets, in the order
    they connected, for the first one whose userId equals [recipientId];
    the presence registry is not consulted.  When no connected socket has
    that userId the handler changes nothing and pushes nothing, to the
    caller or to anyone else.  Otherwise the first such socket, and no
    other, is sent exactly one notificationReceived.  In every reachable
    state a recipient present in the registry has such a socket.  An event
    without payload makes the handler throw. *)
Theorem sendNotification_to_first_connected_socket
    (st : ServerState) (s : Socket) (now date : Z) (data : NotificationData) :
  let st' := on_sendNotification st s now date data in
  let ev := notificationReceived (make_notification s now date data) in
  ((∀ k, k ∈ sockets st → s_userId k ≠ nd_recipientId data) → st' = st) ∧
  (∀ before r after,
     sockets st = before ++ r :: after →
     s_userId r = nd_recipientId data →
     (∀ k, k ∈ before → s_userId k ≠ nd_recipientId data) →
     emitted_by st st' = [(s_id r, ev)] ∧
     inbox (s_id r) (emitted_by st st') = [ev] ∧
     (NoDup (ids st) →
      ∀ k, k ∈ sockets st → k ≠ r → inbox (s_id k) (emitted_by st st') = [])) ∧
  (reachable st → nd_recipientId data ∈ Map_keys (activeUsers st) →
   ∃ r, r ∈ sockets st ∧ s_userId r = nd_recipientId data ∧
        emitted_by st st' = [(s_id r, ev)]) ∧
  handle st s (In_sendNotification now date None) =
    Throws "TypeError: Cannot read properties of undefined (reading 'recipientId')".
Proof.
  intros st' ev. subst st' ev. unfold on_sendNotification. split_and!.
  - intros Hnone. apply find_recipient_None in Hnone. by rewrite Hnone.
  - intros before r after Hs Hr Hbefore.
    rewrite (find_recipient_first st _ before r after) by done.
    assert (emitted_by st
              (socket_emit r (notificationReceived (make_notification s now date data)) st)
            = [(s_id r, notificationReceived (make_notification s now date data))]) as ->.
    { apply emitted_by_push. }
    split_and!; [done| |].
    + unfold inbox. by rewrite filter_cons_True.
    + intros Hnd k Hk Hne. unfold inbox. rewrite filter_cons_False; [done|].
      simpl. intros Heq. apply Hne. symmetry.
      apply (ids_inj (sockets st)); [done| |done..].
      rewrite Hs. apply elem_of_app. right. apply elem_of_cons. by left.
  - intros Hreach Hkey.
    apply reachable_consistent in Hreach as [_ _ Hreg].
    destruct (Hreg _ Hkey) as (k & Hk & Hu).
    destruct (find_recipient st (nd_recipientId data)) as [r|] eqn:Hr.
    + exists r. apply find_recipient_Some in Hr as [Hin Hur].
      split_and!; [done..|]. apply emitted_by_push.
    + exfalso. by eapply find_recipient_None.
  - reflexivity.
Qed.

Lemma sendNotification_to_first_connected_socket_witness :
  on_sendNotification alice_alone alice_tab1 1 2 to_bob = alice_alone ∧
  emitted_by alice_twice (on_sendNotification alice_twice alice_tab2 1 2 to_alice) =
    [("a1", notificationReceived (make_notification alice_tab2 1 2 to_alice))] ∧
  emitted_by alice_closed_first_tab
    (on_sendNotification alice_closed_first_tab bob 1 2 to_alice) =
    [("a2", notificationReceived (make_notification bob 1 2 to_alice))] ∧
  inbox "b1" (emitted_by alice_closed_first_tab
                (on_sendNotification alice_closed_first_tab bob 1 2 to_alice)) = [] ∧
  ∃ r, r ∈ sockets alice_and_bob ∧ s_userId r = "bob" ∧
       emitted_by alice_and_bob (on_sendNotification alice_and_bob alice_tab1 1 2 to_bob) =
         [(s_id r, notificationReceived (make_notification alice_tab1 1 2 to_bob))].
Proof.
  split_and!.
  - destruct (sendNotification_to_first_connected_socket alice_alone alice_tab1 1 2 to_bob)
      as (Habsent & _ & _).
    apply Habsent. intros k Hk.
    apply list_elem_of_singleton in Hk. subst k. discriminate.
  - destruct (sendNotification_to_first_connected_socket alice_twice alice_tab2 1 2 to_alice)
      as (_ & Hfirst & _).
    destruct (Hfirst [] alice_tab1 [alice_tab2]) as (Hlog & _).
    + vm_compute. reflexivity.
    + reflexivity.
    + by intros k ?%elem_of_nil.
    + exact Hlog.
  - destruct (sendNotification_to_first_connected_socket alice_closed_first_tab bob 1 2 to_alice)
      as (_ & Hfirst & _).
    destruct (Hfirst [] alice_tab2 [bob]) as (Hlog & _).
    + vm_compute. reflexivity.
    + reflexivity.
    + by intros k ?%elem_of_nil.
    + exact Hlog.
  - destruct (sendNotification_to_first_connected_socket alice_closed_first_tab bob 1 2 to_alice)
      as (_ & Hfirst & _).
    destruct (Hfirst [] alice_tab2 [bob]) as (_ & _ & Hothers).
    + vm_compute. reflexivity.
    + reflexivity.
    + by intros k ?%elem_of_nil.
    + apply (Hothers ltac:(by_evaluation) bob); [by_evaluation|discriminate].
  - destruct (sendNotification_to_first_connected_socket alice_and_bob alice_tab1 1 2 to_bob)
      as (_ & _ & Hpresent & _).
    apply Hpresent.
    + exists [Connection alice_tab1; Connection bob]. vm_compute. reflexivity.
    + by_evaluation.
Defined.

(** ** Typing indicator *)

(** C6, as claimed: the userTyping broadcast reaches exactly the members
    of the sender's room other than the sender.  The handler uses
    [socket.broadcast.emit] with no room: Alice is the only member of
    "general", Bob joined no room, and Bob is sent her typing event. *)
Lemma userTyping_reaches_sockets_outside_room :
  ¬ (∀ st s data room k,
       reachable st → s ∈ sockets st → k ∈ sockets st →
       s_id s ∈ members room st →
       ((s_id k, userTyping (s_userId s) (s_userName s) (td_isTyping data))
          ∈ emitted_by st (on_userTyping st s data)
        ↔ s_id k ∈ members room st ∧ s_id k ≠ s_id s)).
Proof.
  intros H.
  assert (reachable alice_in_general) as Hr.
  { exists [Connection alice_tab1; Connection bob;
            Event alice_tab1 (In_joinChatRoom "general")]. vm_compute. reflexivity. }
  specialize (H alice_in_general alice_tab1 typing_in_general "general" bob Hr).
  specialize (H ltac:(by_evaluation) ltac:(by_evaluation) ltac:(by_evaluation)).
  destruct H as [H _].
  assert (s_id bob ∉ members "general" alice_in_general) as Hout by by_evaluation.
  apply Hout, H. by_evaluation.
Qed.

Lemma connection_joins_own_room st s st' :
  step st (Connection s) = Some st' → s_id s ∈ members (s_id s) st'.
Proof.
  unfold step. case_decide; [done|]. unfold on_connection.
  destruct (s_socket s); [|done]. intros [= <-].
  unfold members. simpl. rewrite lookup_insert_eq. simpl.
  apply elem_of_union. left. by apply elem_of_singleton.
Qed.

(** C6, amended: the userTyping broadcast is not scoped to a chat room.
    It goes to every connected socket that is not a member of the room
    named by the sender's own socket id: each of them is sent the event
    exactly once, whatever other rooms it is in, and the members of that
    room are sent nothing.  A socket is put in the room of its own id when
    it connects, so the sender is sent nothing for as long as it has not
    left that room.  An event without payload makes the handler throw. *)
Theorem userTyping_to_all_outside_own_room
    (st : ServerState) (s k : Socket) (data : TypingData) :
  NoDup (ids st) → k ∈ sockets st →
  let ev := userTyping (s_userId s) (s_userName s) (td_isTyping data) in
  let sent := emitted_by st (on_userTyping st s data) in
  sent = to_all ev (filter (λ x, s_id x ∉ members (s_id s) st) (sockets st)) ∧
  (s_id k ∉ members (s_id s) st → inbox (s_id k) sent = [ev]) ∧
  (s_id k ∈ members (s_id s) st → inbox (s_id k) sent = []) ∧
  (s_id s ∈ members (s_id s) st → inbox (s_id s) sent = []) ∧
  (∀ sid, sid ∉ ids st → inbox sid sent = []) ∧
  (∀ st0 st1, step st0 (Connection s) = Some st1 → s_id s ∈ members (s_id s) st1) ∧
  handle st s (In_userTyping None) =
    Throws "TypeError: Cannot read properties of undefined (reading 'isTyping')".
Proof.
  intros Hnd Hk ev sent.
  assert (sent = to_all ev (filter (λ x, s_id x ∉ members (s_id s) st) (sockets st)))
    as Hsent.
  { subst sent. unfold on_userTyping, socket_broadcast_emit. apply emitted_by_push. }
  split_and!; [done|..].
  - intros Hout. rewrite Hsent, inbox_to_all_filter by done. by rewrite decide_True.
  - intros Hin. rewrite Hsent, inbox_to_all_filter by done.
    rewrite decide_False; [done|]. by intros Hn.
  - intros Hown. rewrite Hsent. apply inbox_to_all_absent.
    intros (y & Hy & [Hn _]%list_elem_of_filter)%list_elem_of_fmap.
    apply Hn. by rewrite <- Hy.
  - intros sid Hsid. rewrite Hsent. apply inbox_to_all_absent.
    intros (y & Hy & [_ Hin]%list_elem_of_filter)%list_elem_of_fmap.
    apply Hsid. rewrite Hy. by apply list_elem_of_fmap_2.
  - intros st0 st1. apply connection_joins_own_room.
  - reflexivity.
Qed.

Lemma userTyping_to_all_outside_own_room_witness :
  inbox "b1"
    (emitted_by alice_in_general (on_userTyping alice_in_general alice_tab1 typing_in_general))
  = [userTyping "alice" "Alice" true] ∧
  inbox "a1"
    (emitted_by alice_in_general (on_userTyping alice_in_general alice_tab1 typing_in_general))
  = [] ∧
  inbox "b1"
    (emitted_by bob_in_alices_room (on_userTyping bob_in_alices_room alice_tab1 typing_in_general))
  = [] ∧
  inbox "a1"
    (emitted_by alice_left_own_room (on_userTyping alice_left_own_room alice_tab1 typing_in_general))
  = [userTyping "alice" "Alice" true].
Proof.
  split_and!.
  - destruct (userTyping_to_all_outside_own_room alice_in_general alice_tab1 bob typing_in_general)
      as (_ & Hout & _); [by_evaluation..|].
    apply Hout. by_evaluation.
  - destruct (userTyping_to_all_outside_own_room alice_in_general alice_tab1 bob typing_in_general)
      as (_ & _ & _ & Hown & _); [by_evaluation..|].
    apply Hown. by_evaluation.
  - destruct (userTyping_to_all_outside_own_room bob_in_alices_room alice_tab1 bob typing_in_general)
      as (_ & _ & Hin & _); [by_evaluation..|].
    apply Hin. by_evaluation.
  - destruct (userTyping_to_all_outside_own_room alice_left_own_room alice_tab1 alice_tab1
                typing_in_general)
      as (_ & Hout & _); [by_evaluation..|].
    apply Hout. by_evaluation.
Defined.

(** ** Connection and presence broadcast *)

(** C7, as claimed: a notification that was pending for an Identity is
    flushed to its new connection when it registers.  The claim needs at
    least that the notification is among what the new connection is sent.
    Alice notifies Bob while he is offline, then Bob connects: nothing but
    userConnected is ever pushed. *)
Lemma pending_notification_never_flushed :
  ¬ (∀ st sender now date data s st2,
       reachable st → sender ∈ sockets st →
       find_recipient st (nd_recipientId data) = None →
       s_userId s = nd_recipientId data →
       step (on_sendNotification st sender now date data) (Connection s) = Some st2 →
       (s_id s, notificationReceived (make_notification sender now date data))
         ∈ delivered st2).
Proof.
  intros H.
  assert (reachable alice_alone) as Hr.
  { exists [Connection alice_tab1]. vm_compute. reflexivity. }
  specialize (H alice_alone alice_tab1 1 2 to_bob bob
                (default initial
                   (step (on_sendNotification alice_alone alice_tab1 1 2 to_bob)
                      (Connection bob))) Hr).
  specialize (H ltac:(by_evaluation) ltac:(vm_compute; reflexivity)
                eq_refl ltac:(vm_compute; reflexivity)).
  revert H. by_evaluation.
Qed.

(** C7, amended: the connection handler stores the registry entry and
    then broadcasts userConnected to every connected socket, the new one
    included; that is all it pushes, so no notificationReceived comes with
    a register.  A notification sent while no socket of the recipient is
    connected leaves the server state as it was: nothing is kept for
    later. *)
Theorem connection_broadcasts_presence_only
    (st st' : ServerState) (s : Socket) :
  step st (Connection s) = Some st' →
  let ev := userConnected (s_userId s) (s_userName s) (Map_values (activeUsers st')) in
  emitted_by st st' = to_all ev (sockets st ++ [s]) ∧
  (∀ d, d ∈ emitted_by st st' → is_notificationReceived d.2 = false) ∧
  (NoDup (ids st) → inbox (s_id s) (emitted_by st st') = [ev]) ∧
  Map_get (s_userId s) (activeUsers st') = Some (user_info s) ∧
  (∀ sender now date data,
     find_recipient st (nd_recipientId data) = None →
     on_sendNotification st sender now date data = st).
Proof.
  intros (Hfresh & _ & _ & Hs & Ha & Hd)%step_connection_inv ev.
  assert (emitted_by st st' = to_all ev (sockets st ++ [s])) as Hsent.
  { unfold emitted_by. rewrite Hd, Hs. apply drop_app_length. }
  split_and!; [done|..].
  - intros d. rewrite Hsent. unfold to_all.
    by intros (k & -> & _)%list_elem_of_fmap.
  - intros Hnd. rewrite Hsent. apply inbox_to_all_present.
    + rewrite fmap_app. apply NoDup_app.
      split_and!; [done| |apply NoDup_singleton].
      intros x Hx ->%list_elem_of_singleton. done.
    + apply elem_of_app. right. by apply list_elem_of_singleton.
  - rewrite Ha. apply Map_get_set.
  - intros sender now date data Hnone. unfold on_sendNotification. by rewrite Hnone.
Qed.

Lemma connection_broadcasts_presence_only_witness :
  let st' := default initial (step alice_alone (Connection bob)) in
  inbox (s_id bob) (emitted_by alice_alone st') =
    [userConnected "bob" "Bob" (Map_values (activeUsers st'))].
Proof.
  intros st'.
  destruct (connection_broadcasts_presence_only alice_alone st' bob)
    as (_ & _ & Hinbox & _).
  - vm_compute. reflexivity.
  - apply Hinbox. by_evaluation.
Defined.

(** ** Rooms *)

Lemma members_join st s room :
  members room (socket_join s room st) = {[s_id s]} ∪ members room st.
Proof. unfold members at 1. simpl. by rewrite lookup_insert_eq. Qed.

(** C8: joinChatRoom first adds the socket to the room and then emits
    roomEvent to the room as it then stands.  The membership after the
    join is the old one plus the joiner; every connected member of it is
    sent the event exactly once, the joiner too, and connected sockets
    outside the room are sent nothing. *)
Theorem joinChatRoom_notifies_room_with_joiner
    (st : ServerState) (s k : Socket) (roomId : string) :
  NoDup (ids st) → s ∈ sockets st → k ∈ sockets st →
  let st' := on_joinChatRoom st s roomId in
  let ev := roomEvent "userJoined" (s_userName s)
              (String.append (s_userName s) " has joined the room") in
  members roomId st' = {[s_id s]} ∪ members roomId st ∧
  emitted_by st st' =
    to_all ev (filter (λ x, s_id x ∈ members roomId st') (sockets st')) ∧
  inbox (s_id s) (emitted_by st st') = [ev] ∧
  (s_id k ∈ members roomId st' → inbox (s_id k) (emitted_by st st') = [ev]) ∧
  (s_id k ∉ members roomId st' → inbox (s_id k) (emitted_by st st') = []).
Proof.
  intros Hnd Hs Hk st' ev.
  assert (members roomId st' = {[s_id s]} ∪ members roomId st) as Hm.
  { apply members_join. }
  assert (emitted_by st st' =
            to_all ev (filter (λ x, s_id x ∈ {[s_id s]} ∪ members roomId st) (sockets st)))
    as Hsent.
  { subst st'. unfold on_joinChatRoom, io_to_emit.
    rewrite members_join. unfold emitted_by. simpl. apply drop_app_length. }
  split_and!.
  - done.
  - rewrite Hsent, Hm. done.
  - rewrite Hsent, inbox_to_all_filter by done.
    rewrite decide_True; [done|].
    apply elem_of_union. left. by apply elem_of_singleton.
  - rewrite Hm. intros Hin. rewrite Hsent, inbox_to_all_filter by done.
    by rewrite decide_True.
  - rewrite Hm. intros Hout. rewrite Hsent, inbox_to_all_filter by done.
    by rewrite decide_False.
Qed.

Lemma joinChatRoom_notifies_room_with_joiner_witness :
  inbox (s_id bob) (emitted_by alice_in_general (on_joinChatRoom alice_in_general bob "general"))
  = [roomEvent "userJoined" "Bob" "Bob has joined the room"].
Proof.
  destruct (joinChatRoom_notifies_room_with_joiner alice_in_general bob bob "general")
    as (_ & _ & Hself & _).
  - by_evaluation.
  - by_evaluation.
  - by_evaluation.
  - exact Hself.
Defined.

(** ** The client hook *)

(** Running the effect again, with the same or another token, keeps the
    socket that is already in the ref: one connection per hook instance. *)
Lemma useEffect_keeps_socket token o :
  UseSocket.useEffect token (Some o) = Some o.
Proof.
  unfold UseSocket.useEffect. destruct token as [t|]; [|done].
  by destruct (decide (t = "")).
Qed.

Lemma useEffect_idempotent token socketRef :
  UseSocket.useEffect token (UseSocket.useEffect token socketRef) =
  UseSocket.useEffect token socketRef.
Proof.
  destruct socketRef as [o|]; [by rewrite !useEffect_keeps_socket|].
  unfold UseSocket.useEffect. destruct token as [t|]; [|done].
  by destruct (decide (t = "")).
Qed.

(** ** Authentication *)

(** C4: when the token is missing, empty or cannot be decoded, the
    middleware passes an error to [next], the attempt is rejected with
    that error, and the server state (the [activeUsers] map, the socket
    table, the rooms and everything pushed so far) is what it was before
    the attempt; a rejection never comes with another state. *)
Theorem failed_authentication_leaves_state
    (jwt_decode : string → option Claims) (st : ServerState) (h : Handshake) :
  h_token h = None ∨ h_token h = Some "" ∨
    (∃ token, h_token h = Some token ∧ jwt_decode token = None) →
  (∃ message,
     auth_middleware jwt_decode h = next_err message ∧
     connect_attempt jwt_decode st h = Rejected message st) ∧
  (∀ message st', connect_attempt jwt_decode st h = Rejected message st' → st' = st).
Proof.
  intros Hbad. split.
  - unfold connect_attempt, auth_middleware.
    destruct Hbad as [-> | [-> | (token & -> & Hdec)]].
    + by eexists.
    + rewrite decide_True by done. by eexists.
    + destruct (decide (token = "")); [by eexists|]. rewrite Hdec. by eexists.
  - intros message st'. unfold connect_attempt.
    destruct (auth_middleware jwt_decode h) as [s|m].
    + by destruct (on_connection _ _).
    + by intros [= _ <-].
Qed.

Lemma failed_authentication_leaves_state_witness :
  connect_attempt mock_decode alice_alone garbage_handshake =
    Rejected "Authentication failed: Invalid token" alice_alone.
Proof.
  destruct (failed_authentication_leaves_state mock_decode alice_alone garbage_handshake)
    as [(message & Hnext & Hrej) _].
  - right. right. exists "garbage". split; reflexivity.
  - rewrite Hrej. f_equal. vm_compute in Hnext. by injection Hnext as <-.
Defined.

(** ** Typing debounce *)
Import ChatComponent.

Lemma advance_no_timer socket t st : timers st = [] → advance socket t st = st.
Proof. unfold advance. by intros ->. Qed.

Lemma advance_not_due st h due e t :
  armed st h due e → t < due → advance true t st = st.
Proof.
  intros (_ & Ht & _) Hlt. unfold advance. rewrite Ht. simpl.
  rewrite decide_False by lia. done.
Qed.

Lemma advance_due st h due e t :
  armed st h due e → due ≤ t →
  typingTimeoutRef (advance true t st) = None ∧
  timers (advance true t st) = [] ∧
  emitted (advance true t st) = e ++ [false].
Proof.
  intros (_ & Ht & He) Hle. unfold advance. rewrite Ht. simpl.
  rewrite decide_True by lia. unfold fire. simpl. rewrite Ht, He.
  rewrite filter_cons_False by (simpl; tauto). done.
Qed.

Lemma keystroke_when_idle st t :
  idle st →
  armed (handleInputChange true t (advance true t st))
        (next_handle st) (t + 2000) (emitted st ++ [true]).
Proof.
  intros [Href Ht]. rewrite advance_no_timer by done.
  unfold armed, handleInputChange. rewrite Href, Ht. done.
Qed.

Lemma keystroke_when_armed st h due e t :
  armed st h due e → t < due →
  armed (handleInputChange true t (advance true t st)) (next_handle st) (t + 2000) e.
Proof.
  intros Harmed Hlt. rewrite (advance_not_due st h due e) by done.
  destruct Harmed as (Href & Ht & He).
  unfold armed, handleInputChange. rewrite Href, Ht, He. simpl.
  rewrite filter_cons_False by (simpl; tauto). done.
Qed.

Lemma keystrokes_when_armed gaps :
  ∀ t st h e,
    armed st h (t + 2000) e →
    Forall (λ g, 0 ≤ g < 2000) gaps →
    ∃ h', armed (keystrokes true (later t gaps) st) h' (last_keystroke t gaps + 2000) e.
Proof.
  induction gaps as [|g gaps IH]; intros t st h e Harmed Hgaps.
  - by exists h.
  - apply Forall_cons in Hgaps as [Hg Hgaps]. simpl.
    apply (IH (t + g) _ (next_handle st)); [|done].
    apply (keystroke_when_armed st h (t + 2000)); [done|lia].
Qed.

(** C5: starting idle, a burst of N = 1 + |gaps| keystrokes whose
    successive gaps are all shorter than the 2000 ms window emits
    isTyping=true once, on the first keystroke, and nothing more while the
    burst lasts or before the window has elapsed after the last keystroke;
    once it has elapsed, isTyping=false is emitted once, the ref is null
    and no countdown is live. *)
Theorem typing_burst_true_once_then_false_once
    (st0 : Typing) (t0 : Z) (gaps : list Z) (T : Z) :
  idle st0 →
  Forall (λ g, 0 ≤ g < 2000) gaps →
  last_keystroke t0 gaps + 2000 ≤ T →
  let first := handleInputChange true t0 (advance true t0 st0) in
  let st1 := keystrokes true (burst t0 gaps) st0 in
  let st2 := advance true T st1 in
  emitted first = emitted st0 ++ [true] ∧
  emitted st1 = emitted st0 ++ [true] ∧
  (∀ T', T' < last_keystroke t0 gaps + 2000 → advance true T' st1 = st1) ∧
  emitted st2 = emitted st0 ++ [true; false] ∧
  typingTimeoutRef st2 = None ∧
  timers st2 = [].
Proof.
  intros Hidle Hgaps HT first st1 st2.
  pose proof (keystroke_when_idle st0 t0 Hidle) as Hfirst.
  destruct (keystrokes_when_armed gaps t0 first _ _ Hfirst Hgaps) as [h Harmed].
  change (keystrokes true (later t0 gaps) first) with st1 in Harmed.
  destruct (advance_due st1 _ _ _ T Harmed HT) as (Href & Ht & He).
  split_and!.
  - by destruct Hfirst as (_ & _ & ?).
  - by destruct Harmed as (_ & _ & ?).
  - intros T' HT'. by eapply advance_not_due.
  - subst st2. rewrite He, <- app_assoc. done.
  - done.
  - done.
Qed.

Lemma typing_burst_true_once_then_false_once_witness :
  emitted (advance true 4499 (keystrokes true (burst 0 [500; 1999; 0]) fresh_component))
  = [true; false].
Proof.
  destruct (typing_burst_true_once_then_false_once fresh_component 0 [500; 1999; 0] 4499)
    as (_ & _ & _ & He & _).
  - split; reflexivity.
  - repeat constructor; lia.
  - vm_compute. discriminate.
  - exact He.
Defined.

(** * Further properties of server.js *)
Import ServerRest.

(** ** Room membership *)

Lemma empty_without (sid : string) : (∅ : gset string) = ∅ ∖ {[sid]}.
Proof. symmetry. apply subseteq_empty_difference_L, empty_subseteq. Qed.

Lemma members_join_ne st s room room' :
  room' ≠ room → members room' (socket_join s room st) = members room' st.
Proof. intros Hne. unfold members. simpl. by rewrite lookup_insert_ne. Qed.

Lemma members_leave st s room :
  members room (socket_leave s room st) = members room st ∖ {[s_id s]}.
Proof.
  unfold socket_leave, members.
  destruct (rooms st !! room) as [ms|] eqn:Hroom.
  - unfold without. case_decide as Hempty; simpl.
    + rewrite lookup_delete_eq. simpl. by rewrite Hempty.
    + by rewrite lookup_insert_eq.
  - rewrite Hroom. simpl. apply empty_without.
Qed.

Lemma members_leave_ne st s room room' :
  room' ≠ room → members room' (socket_leave s room st) = members room' st.
Proof.
  intros Hne. unfold socket_leave, members.
  destruct (rooms st !! room) as [ms|] eqn:Hroom; [|done].
  unfold without. case_decide; simpl.
  - by rewrite lookup_delete_ne.
  - by rewrite lookup_insert_ne.
Qed.

Lemma members_nsp_remove st s room :
  members room (nsp_remove s st) = members room st ∖ {[s_id s]}.
Proof.
  unfold nsp_remove, members. simpl. rewrite lookup_omap.
  destruct (rooms st !! room) as [ms|]; simpl; [|apply empty_without].
  unfold without. by case_decide.
Qed.

Lemma rooms_handle_other st s e st' :
  handle st s e = Ok st' →
  (∀ r, e ≠ In_joinChatRoom r) → (∀ r, e ≠ In_leaveChatRoom r) →
  rooms st' = rooms st.
Proof.
  intros H Hj Hl. handler_completed e H; simpl; try done.
  - unfold on_sendNotification. by destruct (find_recipient _ _).
  - by destruct (Hj roomId).
  - by destruct (Hl roomId).
  - unfold on_updateStatus. by destruct (Map_get _ _).
Qed.

Lemma step_rooms st i st' :
  step st i = Some st' →
  match i with
  | Connection s => rooms st' = rooms (socket_join s (s_id s) st)
  | Event s e => handle st s e = Ok st'
  | Disconnect s _ => rooms st' = rooms (nsp_remove s st)
  end.
Proof.
  destruct i as [s|s e|s reason]; unfold step.
  - case_decide; [done|]. unfold on_connection.
    destruct (s_socket s); [|done]. by intros [= <-].
  - case_decide; [|done]. destruct (handle st s e); [|done]. by intros [= <-].
  - case_decide; [|done]. by intros [= <-].
Qed.

Lemma initial_rooms_consistent : rooms_consistent initial.
Proof.
  split.
  - intros room sid. unfold members. simpl. rewrite lookup_empty. simpl.
    by intros ?%not_elem_of_empty.
  - intros room ms. simpl. by rewrite lookup_empty.
Qed.

Lemma step_rooms_consistent st i st' :
  rooms_consistent st → step st i = Some st' → rooms_consistent st'.
Proof.
  intros [Hconn Hne] Hstep. pose proof (step_rooms _ _ _ Hstep) as Hrooms.
  destruct i as [s|s e|s reason].
  - apply step_connection_inv in Hstep as (_ & _ & _ & Hs & _).
    assert (∀ room, members room st' = members room (socket_join s (s_id s) st)) as Hm.
    { intros room. unfold members. by rewrite Hrooms. }
    split.
    + intros room sid. rewrite Hm. unfold ids. rewrite Hs, fmap_app, elem_of_app.
      destruct (decide (room = s_id s)) as [->|Hroom].
      * rewrite members_join.
        intros [->%elem_of_singleton|Hin]%elem_of_union.
        -- right. by apply list_elem_of_singleton.
        -- left. by eapply Hconn.
      * rewrite members_join_ne by done. intros Hin. left. by eapply Hconn.
    + intros room ms. rewrite Hrooms. simpl.
      destruct (decide (room = s_id s)) as [->|Hroom].
      * rewrite lookup_insert_eq. intros [= <-] Hempty.
        apply (not_elem_of_empty (C:=gset string) (s_id s)). rewrite <- Hempty.
        apply elem_of_union. left. by apply elem_of_singleton.
      * rewrite lookup_insert_ne by done. apply Hne.
  - apply step_event_inv in Hstep as [Hin Hok].
    assert (ids st' = ids st) as Hids.
    { unfold ids. by rewrite (handle_sockets _ _ _ _ Hok). }
    assert ((∃ r, e = In_joinChatRoom r) ∨ (∃ r, e = In_leaveChatRoom r) ∨
            ((∀ r, e ≠ In_joinChatRoom r) ∧ (∀ r, e ≠ In_leaveChatRoom r)))
      as [[r ->]|[[r ->]|[Hj Hl]]].
    { destruct e; eauto; right; right; split; intros; discriminate. }
    1, 2: simpl in Hok; injection Hok as <-.
    + split.
      * intros room sid. rewrite Hids. simpl.
        unfold on_joinChatRoom, io_to_emit.
        change (members room (push ?l ?x)) with (members room x).
        destruct (decide (room = r)) as [->|Hroom].
        -- rewrite members_join.
           intros [->%elem_of_singleton|Hm]%elem_of_union.
           ++ by apply list_elem_of_fmap_2.
           ++ by eapply Hconn.
        -- rewrite members_join_ne by done. apply Hconn.
      * intros room ms. simpl. destruct (decide (room = r)) as [->|Hroom].
        -- rewrite lookup_insert_eq. intros [= <-] Hempty.
           apply (not_elem_of_empty (C:=gset string) (s_id s)). rewrite <- Hempty.
           apply elem_of_union. left. by apply elem_of_singleton.
        -- rewrite lookup_insert_ne by done. apply Hne.
    + split.
      * intros room sid. rewrite Hids. simpl.
        unfold on_leaveChatRoom, io_to_emit.
        change (members room (push ?l ?x)) with (members room x).
        destruct (decide (room = r)) as [->|Hroom].
        -- rewrite members_leave. intros [Hm _]%elem_of_difference. by eapply Hconn.
        -- rewrite members_leave_ne by done. apply Hconn.
      * intros room ms. simpl. unfold socket_leave.
        destruct (rooms st !! r) as [ms0|] eqn:Hr; [|apply Hne].
        unfold without. case_decide as Hempty; simpl.
        -- destruct (decide (room = r)) as [->|Hroom].
           ++ by rewrite lookup_delete_eq.
           ++ rewrite lookup_delete_ne by done. apply Hne.
        -- destruct (decide (room = r)) as [->|Hroom].
           ++ rewrite lookup_insert_eq. by intros [= <-].
           ++ rewrite lookup_insert_ne by done. apply Hne.
    + assert (rooms st' = rooms st) as Hsame.
      { by eapply rooms_handle_other. }
      split.
      * intros room sid. rewrite Hids. unfold members. rewrite Hsame. apply Hconn.
      * intros room ms. rewrite Hsame. apply Hne.
  - apply step_disconnect_inv in Hstep as (Hin & Hs & _).
    assert (∀ room, members room st' = members room st ∖ {[s_id s]}) as Hm.
    { intros room. rewrite <- members_nsp_remove. unfold members. by rewrite Hrooms. }
    split.
    + intros room sid. rewrite Hm. intros [Hmem Hsid]%elem_of_difference.
      apply Hconn in Hmem. unfold ids in *. rewrite Hs.
      apply list_elem_of_fmap in Hmem as (k & -> & Hk).
      apply list_elem_of_fmap_2, list_elem_of_filter. split; [|done].
      intros Heq. apply Hsid. by apply elem_of_singleton.
    + intros room ms. rewrite Hrooms. simpl. rewrite lookup_omap.
      destruct (rooms st !! room) as [ms0|]; simpl; [|done].
      unfold without. case_decide; [done|]. by intros [= <-].
Qed.

Lemma run_rooms_consistent inputs st st' :
  rooms_consistent st → run st inputs = Some st' → rooms_consistent st'.
Proof.
  revert st. induction inputs as [|i inputs IH]; simpl; intros st Hc.
  - by intros [= <-].
  - destruct (step st i) as [st1|] eqn:Hstep; [|done].
    apply IH. by eapply step_rooms_consistent.
Qed.

(** ** Reachable states *)

Lemma reachable_initial : reachable initial.
Proof. by exists []. Qed.

Lemma reachable_step st i st' : reachable st → step st i = Some st' → reachable st'.
Proof.
  intros Hr Hstep. apply (reachable_run st [i]); [done|].
  simpl. by rewrite Hstep.
Qed.

Lemma reachable_invariant (P : ServerState → Prop) :
  P initial →
  (∀ st i st', reachable st → P st → step st i = Some st' → P st') →
  ∀ st, reachable st → P st.
Proof.
  intros Hinit Hstep st [inputs Hrun].
  assert (∀ inputs st0 st, reachable st0 → P st0 → run st0 inputs = Some st → P st) as Hgen.
  { clear st inputs Hrun. intros inputs. induction inputs as [|i inputs IH]; simpl.
    - by intros st0 st _ HP [= <-].
    - intros st0 st Hr HP. destruct (step st0 i) as [st1|] eqn:H1; [|done].
      apply IH; [by eapply reachable_step|by eapply Hstep]. }
  eapply Hgen; [apply reachable_initial|done..].
Qed.

Section JsMap_more.
Context {V : Type}.
Implicit Types (k : string) (v : V) (m : list (string * V)).

Lemma Map_get_set_ne k k' v m : k' ≠ k → Map_get k' (Map_set k v m) = Map_get k' m.
Proof.
  intros Hne. induction m as [|[k0 v0] m IH]; simpl.
  - by rewrite decide_False.
  - destruct (decide (k0 = k)) as [->|Hk0]; simpl.
    + by rewrite !decide_False.
    + by rewrite IH.
Qed.

Lemma Map_get_delete_ne k k' m : k' ≠ k → Map_get k' (Map_delete k m) = Map_get k' m.
Proof.
  intros Hne. unfold Map_delete. induction m as [|[k0 v0] m IH]; [done|].
  destruct (decide (k0 = k)) as [->|Hk0].
  - rewrite filter_cons_False by (simpl; tauto). simpl.
    by rewrite decide_False.
  - rewrite filter_cons_True by done. simpl. by rewrite IH.
Qed.

Lemma Map_get_Some_values k v m : Map_get k m = Some v → v ∈ Map_values m.
Proof.
  unfold Map_values. induction m as [|[k0 v0] m IH]; simpl; [done|].
  destruct (decide (k0 = k)).
  - intros [= ->]. apply elem_of_cons. by left.
  - intros ?%IH. apply elem_of_cons. by right.
Qed.

Lemma Map_get_is_Some k m : is_Some (Map_get k m) ↔ k ∈ Map_keys m.
Proof.
  rewrite <- not_eq_None_Some, Map_get_None.
  split; [|by intros ? ?]. intros Hnn. by destruct (decide (k ∈ Map_keys m)).
Qed.
End JsMap_more.

(** X1: in every state the dispatcher can reach, socket ids are unique,
    the registry has one entry per userId, and every entry carries the
    id, name and email of a socket that is connected and belongs to that
    user. *)
Theorem registry_entries_describe_connected_sockets (st : ServerState) :
  reachable st →
  NoDup (ids st) ∧
  NoDup (Map_keys (activeUsers st)) ∧
  ∀ u info, Map_get u (activeUsers st) = Some info →
    ∃ k, k ∈ sockets st ∧ s_userId k = u ∧ entry_of k info.
Proof.
  intros Hr. pose proof (reachable_consistent st Hr) as [Hids Hkeys _].
  split_and!; [done..|]. clear Hids Hkeys. revert st Hr.
  apply (reachable_invariant
           (λ st, ∀ u info, Map_get u (activeUsers st) = Some info →
                    ∃ k, k ∈ sockets st ∧ s_userId k = u ∧ entry_of k info)).
  - by intros u info.
  - intros st i st' Hr IH Hstep u info.
    destruct i as [s|s e|s reason].
    + apply step_connection_inv in Hstep as (_ & _ & _ & Hs & Ha & _).
      rewrite Ha, Hs. destruct (decide (u = s_userId s)) as [->|Hne].
      * rewrite Map_get_set. intros [= <-]. exists s. split_and!; [|done..].
        apply elem_of_app. right. by apply list_elem_of_singleton.
      * rewrite Map_get_set_ne by done. intros (k & ? & ? & ?)%IH.
        exists k. split_and!; [|done..]. apply elem_of_app. by left.
    + apply step_event_inv in Hstep as [Hin Hok].
      rewrite (handle_sockets _ _ _ _ Hok).
      assert ((∀ status, e ≠ In_updateStatus status) ∨ ∃ status, e = In_updateStatus status)
        as [Hother|[status ->]].
      { destruct e; eauto; left; intros; discriminate. }
      * assert (activeUsers st' = activeUsers st) as ->; [|apply IH].
        handler_completed e Hok; simpl; try done.
        -- unfold on_sendNotification. by destruct (find_recipient _ _).
        -- unfold on_leaveChatRoom, socket_leave. simpl.
           destruct (rooms st !! roomId); [|done]. by destruct (without _ _).
        -- by destruct (Hother status).
      * simpl in Hok. injection Hok as <-. unfold on_updateStatus.
        destruct (Map_get (s_userId s) (activeUsers st)) as [user|] eqn:Hget;
          simpl; [|apply IH].
        destruct (decide (u = s_userId s)) as [->|Hne].
        -- rewrite Map_get_set. intros [= <-].
           destruct (IH _ _ Hget) as (k & ? & ? & ?). by exists k.
        -- rewrite Map_get_set_ne by done. apply IH.
    + apply step_disconnect_inv in Hstep as (Hin & Hs & Ha & _).
      rewrite Ha, Hs. destruct (decide (u = s_userId s)) as [->|Hne].
      * by rewrite Map_get_delete.
      * rewrite Map_get_delete_ne by done. intros (k & Hk & Hu & ?)%IH.
        exists k. split_and!; [|done..]. apply list_elem_of_filter.
        split; [|done]. intros Heq. apply Hne. rewrite <- Hu. f_equal.
        apply (ids_inj (sockets st)); [|done..].
        by apply reachable_consistent.
Qed.

Lemma registry_entries_describe_connected_sockets_witness :
  ∃ k, k ∈ sockets alice_twice ∧ s_userId k = "alice" ∧ entry_of k (user_info alice_tab2).
Proof.
  destruct (registry_entries_describe_connected_sockets alice_twice) as (_ & _ & H).
  - exists [Connection alice_tab1; Connection alice_tab2]. vm_compute. reflexivity.
  - apply (H "alice"). vm_compute. reflexivity.
Defined.

(** ** Who is sent anything *)

Lemma inbox_none sid (l : list (string * Emitted)) :
  (∀ d, d ∈ l → d.1 ≠ sid) → inbox sid l = [].
Proof.
  intros Hl. unfold inbox. induction l as [|d l IH]; [done|].
  rewrite filter_cons_False.
  - apply IH. intros d' Hd'. apply Hl. apply elem_of_cons. by right.
  - apply Hl. apply elem_of_cons. by left.
Qed.

Lemma to_all_recipient ev (l : list Socket) d :
  d ∈ to_all ev l → ∃ k, k ∈ l ∧ d.1 = s_id k.
Proof. unfold to_all. intros (k & -> & Hk)%list_elem_of_fmap. by exists k. Qed.

(** Every handler appends to the log, and only for sockets of the table. *)
Lemma handle_pushes st s e st' :
  s ∈ sockets st →
  handle st s e = Ok st' →
  ∃ l, delivered st' = delivered st ++ l ∧
       ∀ d, d ∈ l → d.1 ∈ ids st.
Proof.
  intros Hs Hok.
  assert (∀ ev (P : Socket → Prop) `{∀ k, Decision (P k)} d,
            d ∈ to_all ev (filter P (sockets st)) → d.1 ∈ ids st) as Hsel.
  { intros ev P ? d (k & [_ Hk]%list_elem_of_filter & ->)%to_all_recipient.
    by apply list_elem_of_fmap_2. }
  assert (∀ ev d, d ∈ to_all ev (sockets st) → d.1 ∈ ids st) as Hall.
  { intros ev d (k & Hk & ->)%to_all_recipient. by apply list_elem_of_fmap_2. }
  handler_completed e Hok; simpl.
  - eexists. split; [done|]. apply Hall.
  - eexists. split; [done|]. apply Hsel.
  - unfold on_sendNotification.
    destruct (find_recipient st (nd_recipientId data)) as [r|] eqn:Hr.
    + apply find_recipient_Some in Hr as [Hin _]. eexists. split; [done|].
      intros d ->%list_elem_of_singleton. by apply (list_elem_of_fmap_2 s_id).
    + exists []. split; [by rewrite app_nil_r|]. by intros d ?%elem_of_nil.
  - eexists. split; [done|]. apply Hsel.
  - eexists. split; [done|]. apply Hsel.
  - unfold on_leaveChatRoom, io_to_emit.
    assert (sockets (socket_leave s roomId st) = sockets st
            ∧ delivered (socket_leave s roomId st) = delivered st) as [Hsock Hdel].
    { unfold socket_leave. destruct (rooms st !! roomId); [|done].
      by destruct (without _ _). }
    eexists. simpl. rewrite Hsock, Hdel. split; [done|]. apply Hsel.
  - eexists. split; [done|]. apply Hsel.
  - unfold on_updateStatus, io_emit.
    destruct (Map_get _ _); simpl; (eexists; split; [done|]; apply Hall).
  - eexists. split; [done|].
    intros d ->%list_elem_of_singleton. by apply (list_elem_of_fmap_2 s_id).
  - exists []. split; [by rewrite app_nil_r|]. by intros d ?%elem_of_nil.
Qed.

Lemma step_pushes st i st' :
  step st i = Some st' →
  ∃ l, delivered st' = delivered st ++ l ∧ ∀ d, d ∈ l → d.1 ∈ ids st'.
Proof.
  destruct i as [s|s e|s reason]; intros Hstep.
  - apply step_connection_inv in Hstep as (_ & _ & _ & _ & _ & Hd).
    eexists. split; [done|].
    intros d (k & Hk & ->)%to_all_recipient. by apply list_elem_of_fmap_2.
  - apply step_event_inv in Hstep as [Hin Hok].
    destruct (handle_pushes st s e st' Hin Hok) as (l & Hd & Hl). exists l.
    split; [done|]. unfold ids. by rewrite (handle_sockets _ _ _ _ Hok).
  - apply step_disconnect_inv in Hstep as (_ & _ & _ & Hd).
    eexists. split; [done|].
    intros d (k & Hk & ->)%to_all_recipient. by apply list_elem_of_fmap_2.
Qed.

Lemma step_stays_unconnected st i st' sid :
  step st i = Some st' → sid ∉ ids st →
  (∀ s, i = Connection s → s_id s ≠ sid) → sid ∉ ids st'.
Proof.
  intros Hstep Hout Hi. destruct i as [s|s e|s reason].
  - apply step_connection_inv in Hstep as (_ & _ & _ & Hs & _).
    unfold ids in *. rewrite Hs, fmap_app, elem_of_app.
    intros [?| ->%list_elem_of_singleton]; [done|]. by apply (Hi s).
  - apply step_event_inv in Hstep as [_ Hok]. unfold ids.
    by rewrite (handle_sockets _ _ _ _ Hok).
  - apply step_disconnect_inv in Hstep as (_ & Hs & _).
    unfold ids in *. rewrite Hs.
    intros (k & -> & [_ Hk]%list_elem_of_filter)%list_elem_of_fmap.
    apply Hout. by apply list_elem_of_fmap_2.
Qed.

Lemma run_unconnected inputs :
  ∀ st st' sid,
    run st inputs = Some st' → sid ∉ ids st → never_connects sid inputs →
    inbox sid (delivered st') = inbox sid (delivered st) ∧ sid ∉ ids st'.
Proof.
  induction inputs as [|i inputs IH]; simpl; intros st st' sid.
  - by intros [= <-].
  - destruct (step st i) as [st1|] eqn:Hstep; [|done].
    intros Hrun Hout Hnever.
    assert (sid ∉ ids st1) as Hout1.
    { eapply step_stays_unconnected; [done..|].
      intros s ->. apply Hnever. apply elem_of_cons. by left. }
    destruct (IH st1 st' sid Hrun Hout1) as [Hinbox Hout'].
    { intros s Hs. apply Hnever. apply elem_of_cons. by right. }
    split; [|done]. rewrite Hinbox.
    destruct (step_pushes _ _ _ Hstep) as (l & -> & Hl).
    rewrite inbox_app, (inbox_none sid l), app_nil_r; [done|].
    intros d Hd Heq. apply Hout1. rewrite <- Heq. by apply Hl.
Qed.

(** X2: the server pushes events to connected sockets only.  Through any
    run of connections, events and disconnects, a socket id that is not
    connected at the start and does not connect during the run is sent
    nothing and stays out of the socket table. *)
Theorem unconnected_socket_receives_nothing
    (st st' : ServerState) (inputs : list Input) (sid : string) :
  run st inputs = Some st' →
  sid ∉ ids st →
  never_connects sid inputs →
  inbox sid (delivered st') = inbox sid (delivered st) ∧ sid ∉ ids st'.
Proof. apply run_unconnected. Qed.

Lemma unconnected_socket_receives_nothing_witness :
  inbox "c1"
    (delivered
       (default initial
          (run alice_and_bob
             [Event bob (In_sendMessage 1 2 (Some {| md_text := "hi"; md_avatar := None |}));
              Disconnect bob "transport close"])))
  = inbox "c1" (delivered alice_and_bob).
Proof.
  eapply (unconnected_socket_receives_nothing alice_and_bob _
            [Event bob (In_sendMessage 1 2 (Some {| md_text := "hi"; md_avatar := None |}));
             Disconnect bob "transport close"] "c1").
  - vm_compute. reflexivity.
  - by_evaluation.
  - intros s [Hs|[Hs|Hs%elem_of_nil]%elem_of_cons]%elem_of_cons; [discriminate..|done].
Defined.

(** X3: a socket that disconnects is cut off.  It is not sent the
    userDisconnected that announces its own departure, it is sent nothing
    by anything that happens afterwards (as long as its id does not
    connect again), and it is a member of no room. *)
Theorem disconnected_socket_is_cut_off
    (st st1 st' : ServerState) (s : Socket) (reason : string) (inputs : list Input) :
  step st (Disconnect s reason) = Some st1 →
  run st1 inputs = Some st' →
  never_connects (s_id s) inputs →
  inbox (s_id s) (delivered st') = inbox (s_id s) (delivered st) ∧
  (s_id s ∉ ids st') ∧
  (∀ room, s_id s ∉ members room st1) ∧
  (rooms_consistent st → ∀ room, s_id s ∉ members room st').
Proof.
  intros Hstep Hrun Hnever.
  assert (s_id s ∉ ids st1) as Hout.
  { apply step_disconnect_inv in Hstep as (_ & Hs & _). unfold ids. rewrite Hs.
    by intros (k & Hk & [Hne _]%list_elem_of_filter)%list_elem_of_fmap. }
  destruct (run_unconnected inputs st1 st' (s_id s) Hrun Hout Hnever) as [Hinbox Hout'].
  split_and!.
  - rewrite Hinbox. destruct (step_pushes _ _ _ Hstep) as (l & -> & Hl).
    rewrite inbox_app, (inbox_none (s_id s) l), app_nil_r; [done|].
    intros d Hd Heq. apply Hout. rewrite <- Heq. by apply Hl.
  - done.
  - intros room. pose proof (step_rooms _ _ _ Hstep) as Hrooms. simpl in Hrooms.
    assert (members room st1 = members room st ∖ {[s_id s]}) as ->.
    { rewrite <- members_nsp_remove. unfold members. by rewrite Hrooms. }
    intros [_ Hn]%elem_of_difference. apply Hn. by apply elem_of_singleton.
  - intros Hc room Hmem.
    assert (rooms_consistent st') as [Hconn _].
    { eapply run_rooms_consistent; [|done]. by eapply step_rooms_consistent. }
    apply Hout'. by eapply Hconn.
Qed.

Lemma disconnected_socket_is_cut_off_witness :
  let st1 := default initial (step alice_in_general (Disconnect alice_tab1 "transport close")) in
  let st' := default initial
               (run st1 [Event bob (In_roomMessage 5 (Some {| rd_roomId := "general"; rd_text := "anyone?" |}))]) in
  inbox "a1" (delivered st') = inbox "a1" (delivered alice_in_general) ∧
  "a1" ∉ members "general" st'.
Proof.
  intros st1 st'.
  destruct (disconnected_socket_is_cut_off alice_in_general st1 st' alice_tab1
              "transport close"
              [Event bob (In_roomMessage 5 (Some {| rd_roomId := "general"; rd_text := "anyone?" |}))])
    as (Hinbox & _ & _ & Hrooms).
  - vm_compute. reflexivity.
  - vm_compute. reflexivity.
  - intros s [Hs|Hs%elem_of_nil]%elem_of_cons; [discriminate|done].
  - split; [exact Hinbox|]. apply Hrooms.
    apply (run_rooms_consistent
             [Connection alice_tab1; Connection bob;
              Event alice_tab1 (In_joinChatRoom "general")] initial).
    + apply initial_rooms_consistent.
    + vm_compute. reflexivity.
Defined.

(** X4: in every reachable state the room index lists connected sockets
    only and holds no empty room. *)
Theorem rooms_list_connected_sockets (st : ServerState) :
  reachable st →
  (∀ room sid, sid ∈ members room st → sid ∈ ids st) ∧
  (∀ room ms, rooms st !! room = Some ms → ms ≠ ∅).
Proof.
  intros [inputs Hrun].
  destruct (run_rooms_consistent inputs initial st initial_rooms_consistent Hrun).
  done.
Qed.

Lemma rooms_list_connected_sockets_witness :
  "a1" ∈ ids alice_in_general.
Proof.
  destruct (rooms_list_connected_sockets alice_in_general) as [H _].
  - exists [Connection alice_tab1; Connection bob;
            Event alice_tab1 (In_joinChatRoom "general")]. vm_compute. reflexivity.
  - apply (H "general"). by_evaluation.
Defined.

(** ** Leaving and re-joining rooms *)

Lemma leave_keeps_table st s room :
  sockets (socket_leave s room st) = sockets st ∧
  delivered (socket_leave s room st) = delivered st ∧
  activeUsers (socket_leave s room st) = activeUsers st.
Proof.
  unfold socket_leave. destruct (rooms st !! room); [|done].
  by destruct (without _ _).
Qed.

(** X5: leaveChatRoom takes the socket out of the room and then emits
    roomEvent userLeft to the room as it then stands: every remaining
    connected member is sent the event once, the leaver is not sent it
    (unlike a join, which reaches the joiner), and sockets outside the
    room are sent nothing.  The event goes out even when the sender was
    not a member. *)
Theorem leaveChatRoom_notifies_remaining_members
    (st : ServerState) (s k : Socket) (roomId : string) :
  NoDup (ids st) → k ∈ sockets st →
  let st' := on_leaveChatRoom st s roomId in
  let ev := roomEvent "userLeft" (s_userName s)
              (String.append (s_userName s) " has left the room") in
  members roomId st' = members roomId st ∖ {[s_id s]} ∧
  (∀ room, room ≠ roomId → members room st' = members room st) ∧
  inbox (s_id s) (emitted_by st st') = [] ∧
  (s_id k ∈ members roomId st → s_id k ≠ s_id s → inbox (s_id k) (emitted_by st st') = [ev]) ∧
  (s_id k ∉ members roomId st → inbox (s_id k) (emitted_by st st') = []).
Proof.
  intros Hnd Hk st' ev.
  destruct (leave_keeps_table st s roomId) as (Hsock & Hdel & _).
  assert (members roomId st' = members roomId st ∖ {[s_id s]}) as Hm.
  { apply members_leave. }
  assert (emitted_by st st' =
            to_all ev (filter (λ x, s_id x ∈ members roomId st ∖ {[s_id s]}) (sockets st)))
    as Hsent.
  { subst st'. unfold on_leaveChatRoom, io_to_emit, emitted_by. simpl.
    rewrite members_leave, Hsock, Hdel. apply drop_app_length. }
  split_and!.
  - done.
  - intros room Hne. by apply members_leave_ne.
  - rewrite Hsent. apply inbox_to_all_absent.
    intros (y & Hy & [[_ Hn]%elem_of_difference _]%list_elem_of_filter)%list_elem_of_fmap.
    apply Hn. apply elem_of_singleton. done.
  - intros Hin Hne. rewrite Hsent, inbox_to_all_filter by done.
    rewrite decide_True; [done|]. apply elem_of_difference. split; [done|].
    by intros ?%elem_of_singleton.
  - intros Hout. rewrite Hsent, inbox_to_all_filter by done.
    rewrite decide_False; [done|]. by intros [? _]%elem_of_difference.
Qed.

Lemma leaveChatRoom_notifies_remaining_members_witness :
  inbox "a1" (emitted_by alice_in_general (on_leaveChatRoom alice_in_general bob "general"))
  = [roomEvent "userLeft" "Bob" "Bob has left the room"].
Proof.
  destruct (leaveChatRoom_notifies_remaining_members alice_in_general bob alice_tab1 "general")
    as (_ & _ & _ & Hmember & _).
  - by_evaluation.
  - by_evaluation.
  - apply Hmember; [by_evaluation|discriminate].
Defined.

Lemma emitted_by_join st s roomId :
  emitted_by st (on_joinChatRoom st s roomId) =
  to_all (roomEvent "userJoined" (s_userName s)
            (String.append (s_userName s) " has joined the room"))
         (filter (λ x, s_id x ∈ {[s_id s]} ∪ members roomId st) (sockets st)).
Proof.
  unfold on_joinChatRoom, io_to_emit. rewrite members_join.
  unfold emitted_by. simpl. apply drop_app_length.
Qed.

Lemma members_after_join st s roomId :
  members roomId (on_joinChatRoom st s roomId) = {[s_id s]} ∪ members roomId st.
Proof. apply members_join. Qed.

(** X6: joining is idempotent on the room index but not on the
    broadcast.  A second joinChatRoom for the same room leaves the index
    as the first one left it, and roomEvent userJoined is emitted again:
    the joiner and every other connected member of the room are sent the
    event a second time, sockets outside the room are not. *)
Theorem joinChatRoom_twice_same_rooms_second_event
    (st : ServerState) (s k : Socket) (roomId : string) :
  NoDup (ids st) → s ∈ sockets st → k ∈ sockets st →
  let st1 := on_joinChatRoom st s roomId in
  let st2 := on_joinChatRoom st1 s roomId in
  let ev := roomEvent "userJoined" (s_userName s)
              (String.append (s_userName s) " has joined the room") in
  rooms st2 = rooms st1 ∧
  inbox (s_id s) (emitted_by st st1) = [ev] ∧
  inbox (s_id s) (emitted_by st1 st2) = [ev] ∧
  (s_id k ∈ members roomId st1 → inbox (s_id k) (emitted_by st1 st2) = [ev]) ∧
  (s_id k ∉ members roomId st1 → inbox (s_id k) (emitted_by st1 st2) = []).
Proof.
  intros Hnd Hs Hk st1 st2 ev.
  assert (s_id s ∈ {[s_id s]} ∪ members roomId st) as Hself.
  { apply elem_of_union. left. by apply elem_of_singleton. }
  assert (emitted_by st1 st2 =
            to_all ev (filter (λ x, s_id x ∈ {[s_id s]} ∪ members roomId st) (sockets st)))
    as Hsecond.
  { subst st2. rewrite (emitted_by_join st1). subst st1.
    rewrite members_after_join, (assoc_L (∪)), union_idemp_L. done. }
  split_and!.
  - subst st2. unfold on_joinChatRoom at 1. unfold io_to_emit. simpl.
    fold (members roomId st1). subst st1. rewrite members_after_join.
    unfold on_joinChatRoom, io_to_emit. simpl. rewrite insert_insert_eq. f_equal.
    rewrite (assoc_L (∪)). f_equal. apply union_idemp_L.
  - subst st1. rewrite emitted_by_join, inbox_to_all_filter by done.
    by rewrite decide_True.
  - rewrite Hsecond, inbox_to_all_filter by done. by rewrite decide_True.
  - subst st1. rewrite members_after_join. intros Hin.
    rewrite Hsecond, inbox_to_all_filter by done. by rewrite decide_True.
  - subst st1. rewrite members_after_join. intros Hout.
    rewrite Hsecond, inbox_to_all_filter by done. by rewrite decide_False.
Qed.

Lemma joinChatRoom_twice_same_rooms_second_event_witness :
  let st1 := on_joinChatRoom alice_in_general bob "general" in
  let st2 := on_joinChatRoom st1 bob "general" in
  inbox "b1" (emitted_by st1 st2) = [roomEvent "userJoined" "Bob" "Bob has joined the room"] ∧
  inbox "a1" (emitted_by st1 st2) = [roomEvent "userJoined" "Bob" "Bob has joined the room"].
Proof.
  intros st1 st2. split.
  - destruct (joinChatRoom_twice_same_rooms_second_event alice_in_general bob bob "general")
      as (_ & _ & Hself & _); [by_evaluation..|].
    exact Hself.
  - destruct (joinChatRoom_twice_same_rooms_second_event alice_in_general bob alice_tab1
                "general")
      as (_ & _ & _ & Hmember & _); [by_evaluation..|].
    apply Hmember. by_evaluation.
Defined.

(** X7: a join followed by a leave of the same room restores the room
    index when the socket was not a member before (and the index held no
    empty room, as in every reachable state); in any case the membership
    afterwards is the old one without the socket. *)
Theorem join_then_leave_restores_rooms
    (st : ServerState) (s : Socket) (roomId : string) :
  let st2 := on_leaveChatRoom (on_joinChatRoom st s roomId) s roomId in
  members roomId st2 = members roomId st ∖ {[s_id s]} ∧
  (s_id s ∉ members roomId st →
   (∀ ms, rooms st !! roomId = Some ms → ms ≠ ∅) →
   rooms st2 = rooms st).
Proof.
  intros st2. split.
  - subst st2. unfold on_leaveChatRoom, io_to_emit.
    change (members roomId (push ?l ?x)) with (members roomId x).
    rewrite members_leave. unfold on_joinChatRoom, io_to_emit.
    change (members roomId (push ?l ?x)) with (members roomId x).
    rewrite members_join. apply set_eq. intros x.
    rewrite !elem_of_difference, elem_of_union. tauto.
  - intros Hout Hne. subst st2.
    unfold on_leaveChatRoom, io_to_emit, on_joinChatRoom, socket_leave. simpl.
    rewrite lookup_insert_eq. unfold without.
    assert (({[s_id s]} ∪ members roomId st) ∖ {[s_id s]} = members roomId st) as ->.
    { apply set_eq. intros x. rewrite elem_of_difference, elem_of_union, elem_of_singleton.
      split; [tauto|]. intros Hx. split; [by right|]. by intros ->. }
    unfold members in *. destruct (rooms st !! roomId) as [ms|] eqn:Hroom; simpl in *.
    + rewrite decide_False by by apply Hne. simpl.
      rewrite insert_insert_eq. by apply insert_id.
    + rewrite decide_True by done. simpl.
      rewrite delete_insert_eq. by apply delete_id.
Qed.

Lemma join_then_leave_restores_rooms_witness :
  rooms (on_leaveChatRoom (on_joinChatRoom alice_in_general bob "general") bob "general")
  = rooms alice_in_general.
Proof.
  destruct (join_then_leave_restores_rooms alice_in_general bob "general") as [_ H].
  apply H.
  - by_evaluation.
  - intros ms Hms ->. revert Hms. vm_compute. discriminate.
Defined.

(** ** Room messages *)

(** X8: roomMessage is sent to the connected members of the named room
    and to nobody else.  The handler does not look at the sender's own
    membership: a socket that never joined the room can post to it and is
    not sent its own message. *)
Theorem roomMessage_reaches_members_only
    (st : ServerState) (s k : Socket) (date : Z) (roomData : RoomData) :
  NoDup (ids st) → k ∈ sockets st →
  let st' := on_roomMessage st s date roomData in
  let ev := roomMessageReceived (s_userName s) (rd_text roomData) date in
  rooms st' = rooms st ∧ activeUsers st' = activeUsers st ∧ sockets st' = sockets st ∧
  (s_id k ∈ members (rd_roomId roomData) st → inbox (s_id k) (emitted_by st st') = [ev]) ∧
  (s_id k ∉ members (rd_roomId roomData) st → inbox (s_id k) (emitted_by st st') = []) ∧
  (members (rd_roomId roomData) st = ∅ → st' = st).
Proof.
  intros Hnd Hk st' ev.
  assert (emitted_by st st' =
            to_all ev (filter (λ x, s_id x ∈ members (rd_roomId roomData) st) (sockets st)))
    as Hsent.
  { subst st'. unfold on_roomMessage, io_to_emit. apply emitted_by_push. }
  split_and!; [done..| | |].
  - intros Hin. rewrite Hsent, inbox_to_all_filter by done. by rewrite decide_True.
  - intros Hout. rewrite Hsent, inbox_to_all_filter by done. by rewrite decide_False.
  - intros Hempty. subst st'. unfold on_roomMessage, io_to_emit.
    assert (filter (λ x : Socket, s_id x ∈ members (rd_roomId roomData) st) (sockets st) = [])
      as ->.
    { clear Hnd Hk Hsent. induction (sockets st) as [|x l IH]; [done|].
      rewrite filter_cons_False; [exact IH|]. rewrite Hempty. apply not_elem_of_empty. }
    unfold push. simpl. rewrite app_nil_r. by destruct st.
Qed.

Lemma roomMessage_reaches_members_only_witness :
  let st' := on_roomMessage alice_in_general bob 7
               {| rd_roomId := "general"; rd_text := "hello room" |} in
  inbox "a1" (emitted_by alice_in_general st') = [roomMessageReceived "Bob" "hello room" 7] ∧
  inbox "b1" (emitted_by alice_in_general st') = [].
Proof.
  intros st'. split.
  - destruct (roomMessage_reaches_members_only alice_in_general bob alice_tab1 7
                {| rd_roomId := "general"; rd_text := "hello room" |})
      as (_ & _ & _ & Hin & _); [by_evaluation..|].
    apply Hin. by_evaluation.
  - destruct (roomMessage_reaches_members_only alice_in_general bob bob 7
                {| rd_roomId := "general"; rd_text := "hello room" |})
      as (_ & _ & _ & _ & Hout & _); [by_evaluation..|].
    apply Hout. by_evaluation.
Defined.

(** ** Status and the presence list *)

Lemma on_updateStatus_registry (st : ServerState) (s : Socket) (status : string) :
  let st' := on_updateStatus st s status in
  Map_keys (activeUsers st') = Map_keys (activeUsers st) ∧
  (∀ u, u ≠ s_userId s → Map_get u (activeUsers st') = Map_get u (activeUsers st)) ∧
  (∀ user, Map_get (s_userId s) (activeUsers st) = Some user →
     Map_get (s_userId s) (activeUsers st') =
       Some {| u_socketId := u_socketId user; u_userName := u_userName user;
               u_email := u_email user; u_status := status |}) ∧
  (Map_get (s_userId s) (activeUsers st) = None → activeUsers st' = activeUsers st) ∧
  emitted_by st st' =
    to_all (userStatusChanged (s_userId s) (s_userName s) status) (sockets st).
Proof.
  intros st'. subst st'. unfold on_updateStatus.
  destruct (Map_get (s_userId s) (activeUsers st)) as [user|] eqn:Hget; simpl.
  - split_and!.
    + apply Map_keys_set_present. apply Map_get_is_Some. by rewrite Hget.
    + intros u Hne. by apply Map_get_set_ne.
    + intros user' [= <-]. apply Map_get_set.
    + done.
    + unfold emitted_by. simpl. apply drop_app_length.
  - split_and!; [done..|]. unfold io_emit. apply emitted_by_push.
Qed.

(** X9: updateStatus rewrites the status of the entry stored under the
    sender's userId and nothing else: the keys and their order, every
    other entry, and the socketId, name and email of the entry itself stay
    (the entry may name another connection of the same user).  When the
    user has no entry the registry is left alone.  In both cases every
    connected socket, the sender included, is sent userStatusChanged
    exactly once. *)
Theorem updateStatus_rewrites_status_only
    (st : ServerState) (s : Socket) (status : string) :
  let st' := on_updateStatus st s status in
  let ev := userStatusChanged (s_userId s) (s_userName s) status in
  Map_keys (activeUsers st') = Map_keys (activeUsers st) ∧
  (∀ u, u ≠ s_userId s → Map_get u (activeUsers st') = Map_get u (activeUsers st)) ∧
  (∀ user, Map_get (s_userId s) (activeUsers st) = Some user →
     Map_get (s_userId s) (activeUsers st') =
       Some {| u_socketId := u_socketId user; u_userName := u_userName user;
               u_email := u_email user; u_status := status |}) ∧
  (Map_get (s_userId s) (activeUsers st) = None → activeUsers st' = activeUsers st) ∧
  emitted_by st st' = to_all ev (sockets st) ∧
  (NoDup (ids st) →
   (∀ k, k ∈ sockets st → inbox (s_id k) (emitted_by st st') = [ev]) ∧
   (∀ sid, sid ∉ ids st → inbox sid (emitted_by st st') = [])).
Proof.
  intros st' ev.
  destruct (on_updateStatus_registry st s status) as (Hk & Ho & Hsome & Hnone & Hsent).
  fold st' in Hk, Ho, Hsome, Hnone, Hsent. split_and!; [done..|].
  intros Hnd. rewrite Hsent. split.
  - intros k Hin. by apply inbox_to_all_present.
  - intros sid Hsid. by apply inbox_to_all_absent.
Qed.

Lemma updateStatus_rewrites_status_only_witness :
  Map_get "alice" (activeUsers (on_updateStatus alice_twice alice_tab1 "away")) =
    Some {| u_socketId := "a2"; u_userName := "Alice";
            u_email := "alice@example.org"; u_status := "away" |} ∧
  activeUsers (on_updateStatus alice_closed_first_tab alice_tab2 "away") =
    activeUsers alice_closed_first_tab ∧
  inbox "b1" (emitted_by alice_closed_first_tab
                (on_updateStatus alice_closed_first_tab alice_tab2 "away")) =
    [userStatusChanged "alice" "Alice" "away"].
Proof.
  split_and!.
  - destruct (updateStatus_rewrites_status_only alice_twice alice_tab1 "away")
      as (_ & _ & Hentry & _).
    apply (Hentry (user_info alice_tab2)). vm_compute. reflexivity.
  - destruct (updateStatus_rewrites_status_only alice_closed_first_tab alice_tab2 "away")
      as (_ & _ & _ & Hnone & _).
    apply Hnone. vm_compute. reflexivity.
  - destruct (updateStatus_rewrites_status_only alice_closed_first_tab alice_tab2 "away")
      as (_ & _ & _ & _ & _ & Hinbox).
    destruct Hinbox as [Hall _]; [by_evaluation|].
    apply (Hall bob). by_evaluation.
Defined.

(** X10: getActiveUsers answers the requester alone with the values of
    the registry in insertion order and changes nothing else; asked after
    an updateStatus of a registered user, the list has the length it had
    before and holds that user's entry with the new status. *)
Theorem getActiveUsers_after_updateStatus
    (st : ServerState) (s k : Socket) (status : string) (user : UserInfo) :
  Map_get (s_userId s) (activeUsers st) = Some user →
  let st1 := on_updateStatus st s status in
  let st2 := on_getActiveUsers st1 k in
  let l := Map_values (activeUsers st1) in
  emitted_by st1 st2 = [(s_id k, activeUsersList l)] ∧
  activeUsers st2 = activeUsers st1 ∧ rooms st2 = rooms st1 ∧ sockets st2 = sockets st1 ∧
  length l = length (Map_values (activeUsers st)) ∧
  {| u_socketId := u_socketId user; u_userName := u_userName user;
     u_email := u_email user; u_status := status |} ∈ l.
Proof.
  intros Hget st1 st2 l.
  destruct (on_updateStatus_registry st s status) as (Hkeys & _ & Hentry & _).
  fold st1 in Hkeys, Hentry. split_and!.
  - subst st2. unfold on_getActiveUsers, socket_emit. apply emitted_by_push.
  - done.
  - done.
  - done.
  - subst l. unfold Map_values, Map_keys in *.
    rewrite !length_fmap. rewrite <- (length_fmap fst (activeUsers st1)), Hkeys.
    by rewrite length_fmap.
  - subst l. eapply Map_get_Some_values. by apply Hentry.
Qed.

Lemma getActiveUsers_after_updateStatus_witness :
  let st1 := on_updateStatus alice_and_bob bob "busy" in
  emitted_by st1 (on_getActiveUsers st1 alice_tab1) =
    [("a1", activeUsersList (Map_values (activeUsers st1)))] ∧
  {| u_socketId := "b1"; u_userName := "Bob";
     u_email := "bob@example.org"; u_status := "busy" |} ∈ Map_values (activeUsers st1).
Proof.
  intros st1.
  destruct (getActiveUsers_after_updateStatus alice_and_bob bob alice_tab1 "busy" (user_info bob))
    as (Hreply & _ & _ & _ & _ & Hin).
  - vm_compute. reflexivity.
  - split; [exact Hreply|exact Hin].
Defined.

Section JsMap_positions.
Context {V : Type}.
Implicit Types (k : string) (v : V) (m : list (string * V)).

Lemma Map_values_set_fresh k v m :
  k ∉ Map_keys m → Map_values (Map_set k v m) = Map_values m ++ [v].
Proof.
  intros Hk. rewrite Map_set_fresh by done. unfold Map_values. by rewrite fmap_app.
Qed.

Lemma Map_values_set_present k v m (i : nat) :
  NoDup (Map_keys m) → Map_keys m !! i = Some k →
  Map_values (Map_set k v m) = <[i:=v]> (Map_values m).
Proof.
  revert i. induction m as [|[k0 v0] m IH]; intros i; [done|].
  unfold Map_keys, Map_values in *. rewrite fmap_cons, NoDup_cons.
  intros [Hout Hnd]. simpl. destruct i as [|i]; simpl.
  - intros [= ->]. by rewrite decide_True.
  - intros Hi. destruct (decide (k0 = k)) as [->|Hne].
    + exfalso. apply Hout. by eapply list_elem_of_lookup_2.
    + simpl. f_equal. by apply IH.
Qed.
End JsMap_positions.

(** X11: the presence list keeps insertion order across connections.
    A user who was not registered is appended at the end of the snapshot;
    a user who already was keeps the position of the old entry, which is
    overwritten with the new connection's data. *)
Theorem connection_keeps_snapshot_order
    (st st' : ServerState) (s : Socket) :
  step st (Connection s) = Some st' →
  NoDup (Map_keys (activeUsers st)) →
  (s_userId s ∉ Map_keys (activeUsers st) →
     Map_values (activeUsers st') = Map_values (activeUsers st) ++ [user_info s]) ∧
  (∀ i : nat, Map_keys (activeUsers st) !! i = Some (s_userId s) →
     Map_values (activeUsers st') = <[i:=user_info s]> (Map_values (activeUsers st))).
Proof.
  intros (_ & _ & _ & _ & Ha & _)%step_connection_inv Hnd. rewrite Ha. split.
  - apply Map_values_set_fresh.
  - intros i. by apply Map_values_set_present.
Qed.

Lemma connection_keeps_snapshot_order_witness :
  let st' := default initial (step alice_and_bob (Connection alice_tab2)) in
  Map_values (activeUsers st') = [user_info alice_tab2; user_info bob].
Proof.
  intros st'.
  destruct (connection_keeps_snapshot_order alice_and_bob st' alice_tab2) as [_ H].
  - vm_compute. reflexivity.
  - by_evaluation.
  - rewrite (H 0%nat); [|vm_compute; reflexivity]. vm_compute. reflexivity.
Defined.

(** X12: the count reported by /api/health, the size of the registry,
    never exceeds the number of connected sockets, and /api/active-users
    returns that many entries. *)
Theorem health_count_at_most_connections (st : ServerState) :
  reachable st →
  (snd (api_health st) ≤ length (sockets st))%nat ∧
  length (api_active_users st) = snd (api_health st).
Proof.
  intros Hr. unfold api_health, api_active_users, Map_values. simpl.
  rewrite length_fmap. split; [|done].
  destruct (reachable_consistent st Hr) as [_ Hkeys Hreg].
  rewrite <- (length_fmap fst (activeUsers st)), <- (length_fmap s_userId (sockets st)).
  apply submseteq_length, NoDup_submseteq; [done|].
  intros u (k & Hk & <-)%Hreg. by apply list_elem_of_fmap_2.
Qed.

Lemma health_count_at_most_connections_witness :
  (snd (api_health alice_twice) ≤ length (sockets alice_twice))%nat.
Proof.
  destruct (health_count_at_most_connections alice_twice) as [H _].
  - exists [Connection alice_tab1; Connection alice_tab2]. vm_compute. reflexivity.
  - exact H.
Defined.

(** X13: what one client event can do to presence.  A handler throws
    exactly when sendMessage, userTyping, sendNotification, roomMessage or
    shareUpdate arrives without payload; the exception is uncaught and
    the dispatcher has no next state.  A handler that completes leaves the
    socket table and the keys of the registry as they are: it connects,
    disconnects, registers and deregisters nobody; only updateStatus
    touches the registry at all, and only joinChatRoom and leaveChatRoom
    touch the room index. *)
Theorem client_events_throw_or_keep_presence
    (st : ServerState) (s : Socket) (e : Incoming) :
  ((∃ err, handle st s e = Throws err) ↔
     (∃ now date, e = In_sendMessage now date None) ∨
     e = In_userTyping None ∨
     (∃ now date, e = In_sendNotification now date None) ∨
     (∃ date, e = In_roomMessage date None) ∨
     (∃ date, e = In_shareUpdate date None)) ∧
  ((∃ err, handle st s e = Throws err) → step st (Event s e) = None) ∧
  (∀ st', handle st s e = Ok st' →
     sockets st' = sockets st ∧
     Map_keys (activeUsers st') = Map_keys (activeUsers st) ∧
     ((∀ status, e ≠ In_updateStatus status) → activeUsers st' = activeUsers st) ∧
     ((∀ r, e ≠ In_joinChatRoom r) → (∀ r, e ≠ In_leaveChatRoom r) →
        rooms st' = rooms st)).
Proof.
  split_and!.
  - split.
    + intros [err H].
      destruct e as [now date [messageData|]|[data|]|now date [data|]|roomId
                    |date [roomData|]|roomId|date [update|]|status| |];
        simpl in H; try discriminate H; eauto 10.
    + intros [(now & date & ->)|[->|[(now & date & ->)|[(date & ->)|(date & ->)]]]];
        simpl; by eexists.
  - intros [err H]. unfold step. case_decide; [|done]. by rewrite H.
  - intros st' Hok. split_and!.
    + by eapply handle_sockets.
    + by eapply handle_keys.
    + intros Hother. handler_completed e Hok; simpl; try done.
      * unfold on_sendNotification. by destruct (find_recipient _ _).
      * by destruct (leave_keeps_table st s roomId) as (_ & _ & ?).
      * by destruct (Hother status).
    + by eapply rooms_handle_other.
Qed.

Lemma client_events_throw_or_keep_presence_witness :
  step alice_and_bob (Event bob (In_userTyping None)) = None ∧
  activeUsers (on_joinChatRoom alice_and_bob bob "general") = activeUsers alice_and_bob ∧
  rooms (on_updateStatus alice_and_bob bob "busy") = rooms alice_and_bob.
Proof.
  split_and!.
  - destruct (client_events_throw_or_keep_presence alice_and_bob bob (In_userTyping None))
      as (Hthrows & Hstep & _).
    apply Hstep, Hthrows. right. by left.
  - destruct (client_events_throw_or_keep_presence alice_and_bob bob (In_joinChatRoom "general"))
      as (_ & _ & H).
    destruct (H (on_joinChatRoom alice_and_bob bob "general")) as (_ & _ & Hreg & _);
      [reflexivity|].
    apply Hreg. discriminate.
  - destruct (client_events_throw_or_keep_presence alice_and_bob bob (In_updateStatus "busy"))
      as (_ & _ & H).
    destruct (H (on_updateStatus alice_and_bob bob "busy")) as (_ & _ & _ & Hrooms);
      [reflexivity|].
    apply Hrooms; discriminate.
Defined.

(** ** Admission *)

(** X14: the middleware lets a connection through exactly when the token
    is a non-empty string that [jwt.decode] decodes; the socket then
    carries the userId, userName and email of the decoded claims.  The
    token is decoded, not verified. *)
Theorem auth_accepts_exactly_decodable_tokens
    (jwt_decode : string → option Claims) (h : Handshake) (s : Socket) :
  auth_middleware jwt_decode h = next_ok s ↔
  ∃ token decoded,
    h_token h = Some token ∧ token ≠ "" ∧ jwt_decode token = Some decoded ∧
    s = {| s_id := h_id h; s_userId := c_userId decoded;
           s_userName := c_userName decoded; s_email := c_email decoded;
           s_socket := h_socket h |}.
Proof.
  unfold auth_middleware. split.
  - destruct (h_token h) as [token|]; [|done].
    destruct (decide (token = "")); [done|].
    destruct (jwt_decode token) as [decoded|] eqn:Hdec; [|done].
    intros [= <-]. by exists token, decoded.
  - intros (token & decoded & -> & Hne & Hdec & ->).
    rewrite decide_False by done. by rewrite Hdec.
Qed.

Lemma auth_accepts_exactly_decodable_tokens_witness :
  auth_middleware mock_decode
    {| h_id := "b1"; h_token := Some "mock_token_bob"; h_socket := Some "b1" |}
  = next_ok bob.
Proof.
  apply auth_accepts_exactly_decodable_tokens.
  exists "mock_token_bob",
    {| c_userId := "bob"; c_userName := "Bob"; c_email := "bob@example.org" |}.
  split_and!; [reflexivity|discriminate|reflexivity|reflexivity].
Defined.

(** X15: the first line of the connection handler reads
    [socket.socket.id].  The handler throws exactly when [socket.socket]
    is undefined, before the registry is written and before anything is
    broadcast; an authenticated attempt then ends in that exception and
    the dispatcher has no next state.  When the property is defined the
    handler always completes. *)
Theorem connection_handler_throws_without_socket_property
    (jwt_decode : string → option Claims) (st : ServerState) (s : Socket) (h : Handshake) :
  ((∃ e, on_connection st s = Throws e) ↔ s_socket s = None) ∧
  (s_socket s = None → step st (Connection s) = None) ∧
  (auth_middleware jwt_decode h = next_ok s → s_socket s = None →
     connect_attempt jwt_decode st h =
       Crashed "TypeError: Cannot read properties of undefined (reading 'id')").
Proof.
  split_and!.
  - unfold on_connection. destruct (s_socket s); split; try done.
    + by intros [e ?].
    + intros _. by eexists.
  - intros Hs. unfold step, on_connection. rewrite Hs. by case_decide.
  - intros Hauth Hs. unfold connect_attempt, on_connection. by rewrite Hauth, Hs.
Qed.

Lemma connection_handler_throws_without_socket_property_witness :
  connect_attempt mock_decode alice_alone
    {| h_id := "b1"; h_token := Some "mock_token_bob"; h_socket := None |}
  = Crashed "TypeError: Cannot read properties of undefined (reading 'id')".
Proof.
  destruct (connection_handler_throws_without_socket_property mock_decode alice_alone
              {| s_id := "b1"; s_userId := "bob"; s_userName := "Bob";
                 s_email := "bob@example.org"; s_socket := None |}
              {| h_id := "b1"; h_token := Some "mock_token_bob"; h_socket := None |})
    as (_ & _ & H).
  apply H; reflexivity.
Defined.

(** * test-server.js *)
Section test_server.
Import TestServerJs.

Lemma tinbox_app sid (l1 l2 : list (string * TestServerJs.Emitted)) :
  TestServerJs.inbox sid (l1 ++ l2) = TestServerJs.inbox sid l1 ++ TestServerJs.inbox sid l2.
Proof. unfold TestServerJs.inbox. by rewrite filter_app, fmap_app. Qed.

Lemma tinbox_none sid (l : list (string * TestServerJs.Emitted)) :
  (∀ d, d ∈ l → d.1 ≠ sid) → TestServerJs.inbox sid l = [].
Proof.
  intros Hl. unfold TestServerJs.inbox. induction l as [|d l IH]; [done|].
  rewrite filter_cons_False.
  - apply IH. intros d' Hd'. apply Hl. apply elem_of_cons. by right.
  - apply Hl. apply elem_of_cons. by left.
Qed.

(** What one step appends to the log: events for connected sockets, and
    for a socket that was not connected before only its welcome. *)
Lemma tstep_pushes st i st' :
  TestServerJs.step st i = Some st' →
  ∃ l, log st' = log st ++ l ∧
       ∀ d, d ∈ l →
         d.1 ∈ clients st ∨
         (TestServerJs.inbox d.1 l = [d.2] ∧ ∃ date, d.2 = welcome "Welcome to Socket.IO!" d.1 date).
Proof.
  destruct i as [sid date|sid date data|sid date data|sid]; simpl; case_decide; try done;
    intros [= <-]; simpl.
  - eexists. split; [done|]. intros d ->%list_elem_of_singleton. right. simpl.
    split; [|by eexists]. unfold TestServerJs.inbox.
    by rewrite filter_cons_True.
  - eexists. split; [done|]. intros d ->%list_elem_of_singleton. by left.
  - eexists. split; [done|]. intros d (c & -> & Hc)%list_elem_of_fmap. by left.
  - exists []. split; [by rewrite app_nil_r|]. by intros d ?%elem_of_nil.
Qed.

Lemma tstep_clients st i st' sid :
  TestServerJs.step st i = Some st' → sid ∈ clients st' →
  sid ∈ clients st ∨ ∃ date, i = TestServerJs.Connection sid date.
Proof.
  destruct i as [sid0 date|sid0 date data|sid0 date data|sid0]; simpl; case_decide; try done;
    intros [= <-]; simpl; eauto.
  - intros [?| ->%list_elem_of_singleton]%elem_of_app; eauto.
  - intros [_ ?]%list_elem_of_filter. by left.
Qed.

(** X16: echo is a round trip to the sender alone.  For a sequence of
    echo requests from one connected socket, that socket is sent one
    echo_response per request, in order, each carrying the data it sent,
    and no other socket is sent anything. *)
Theorem echo_returns_data_to_sender_only
    (st : TestServerJs.State) (sid : string) (requests : list (Z * string)) :
  sid ∈ clients st →
  ∃ st', TestServerJs.run st (echoes sid requests) = Some st' ∧
    clients st' = clients st ∧
    TestServerJs.inbox sid (log st') =
      TestServerJs.inbox sid (log st) ++ ((λ r, echo_response r.2 r.1) <$> requests) ∧
    ∀ other, other ≠ sid → TestServerJs.inbox other (log st') = TestServerJs.inbox other (log st).
Proof.
  revert st. induction requests as [|[date data] requests IH]; intros st Hin; simpl.
  - exists st. split_and!; [done..|by rewrite app_nil_r|done].
  - rewrite decide_True by done.
    destruct (IH (on_echo st sid date data)) as (st' & Hrun & Hc & Hsid & Hother); [done|].
    exists st'. split_and!; [done..| |].
    + rewrite Hsid. simpl. rewrite tinbox_app, <- app_assoc. f_equal.
      unfold TestServerJs.inbox. by rewrite filter_cons_True.
    + intros other Hne. rewrite (Hother other Hne). simpl.
      rewrite tinbox_app, (tinbox_none other [_]), app_nil_r; [done|].
      intros d ->%list_elem_of_singleton. simpl. congruence.
Qed.

Lemma echo_returns_data_to_sender_only_witness :
  ∃ st',
    TestServerJs.run (TestServerJs.on_connection TestServerJs.initial "t1" 0)
         (echoes "t1" [(1, "hello"); (2, "again")]) = Some st' ∧
    TestServerJs.inbox "t1" (log st') =
      [welcome "Welcome to Socket.IO!" "t1" 0; echo_response "hello" 1; echo_response "again" 2].
Proof.
  destruct (echo_returns_data_to_sender_only
              (TestServerJs.on_connection TestServerJs.initial "t1" 0) "t1"
              [(1, "hello"); (2, "again")])
    as (st' & Hrun & _ & Hin & _).
  - by_evaluation.
  - exists st'. split; [exact Hrun|]. rewrite Hin. reflexivity.
Defined.

(** X17: the first thing the test server ever sends a socket is the
    welcome that carries that socket's own id.  In every state reached
    from the start, a connected socket has been sent something, and
    whatever a socket id has been sent begins with its welcome. *)
Theorem welcome_comes_first (inputs : list TestServerJs.Input) (st : TestServerJs.State) :
  TestServerJs.run TestServerJs.initial inputs = Some st →
  (∀ sid, sid ∈ clients st → TestServerJs.inbox sid (log st) ≠ []) ∧
  (∀ sid e, head (TestServerJs.inbox sid (log st)) = Some e →
     ∃ date, e = welcome "Welcome to Socket.IO!" sid date).
Proof.
  set (P := λ st : TestServerJs.State,
         (∀ sid, sid ∈ clients st → TestServerJs.inbox sid (log st) ≠ []) ∧
         (∀ sid e, head (TestServerJs.inbox sid (log st)) = Some e →
            ∃ date, e = welcome "Welcome to Socket.IO!" sid date)).
  assert (∀ inputs st0 st, P st0 → TestServerJs.run st0 inputs = Some st → P st) as Hgen.
  { clear inputs st. intros inputs.
    induction inputs as [|i inputs IH]; simpl; intros st0 st HP.
    - by intros [= <-].
    - destruct (TestServerJs.step st0 i) as [st1|] eqn:Hstep; [|done].
      apply IH. destruct HP as [Hne Hhead].
      destruct (tstep_pushes _ _ _ Hstep) as (l & Hlog & Hl). split.
      + intros sid Hsid. rewrite Hlog, tinbox_app.
        destruct (tstep_clients _ _ _ _ Hstep Hsid) as [Hold|[date ->]].
        * intros [Hnil _]%app_eq_nil. by apply (Hne sid).
        * simpl in Hstep. case_decide; [done|]. injection Hstep as <-.
          simpl in Hlog. apply app_inv_head in Hlog as <-.
          intros [_ Hnil]%app_eq_nil. revert Hnil.
          unfold TestServerJs.inbox. by rewrite filter_cons_True.
      + intros sid e. rewrite Hlog, tinbox_app.
        destruct (TestServerJs.inbox sid (log st0)) as [|e0 rest] eqn:Hold.
        * simpl. destruct (TestServerJs.inbox sid l) as [|e1 rest1] eqn:Hnew; [done|].
          intros [= <-].
          assert (∃ d, d ∈ l ∧ d.1 = sid ∧ d.2 = e1) as (d & Hd & Hd1 & Hd2).
          { clear -Hnew. unfold TestServerJs.inbox in Hnew.
            assert (e1 ∈ (filter (λ d : string * TestServerJs.Emitted, d.1 = sid) l).*2)
              as (d & -> & [? ?]%list_elem_of_filter)%list_elem_of_fmap.
            { rewrite Hnew. apply elem_of_cons. by left. }
            by exists d. }
          destruct (Hl d Hd) as [Hconn|[Honly [date Hw]]].
          -- exfalso. rewrite Hd1 in Hconn. by apply (Hne sid).
          -- exists date. by rewrite <- Hd2, <- Hd1.
        * simpl. intros [= <-]. apply Hhead. by rewrite Hold. }
  intros Hrun. apply (Hgen inputs TestServerJs.initial st); [|done].
  split; [by intros sid ?%elem_of_nil|done].
Qed.

Lemma welcome_comes_first_witness :
  ∃ date,
    welcome "Welcome to Socket.IO!" "t2" 1 = welcome "Welcome to Socket.IO!" "t2" date.
Proof.
  destruct (welcome_comes_first
              [TestServerJs.Connection "t1" 0; TestServerJs.Connection "t2" 1;
               TestServerJs.Broadcast "t1" 2 "hello all"]
              (default TestServerJs.initial
                 (TestServerJs.run TestServerJs.initial
                    [TestServerJs.Connection "t1" 0; TestServerJs.Connection "t2" 1;
                     TestServerJs.Broadcast "t1" 2 "hello all"]))) as [_ H].
  - vm_compute. reflexivity.
  - apply (H "t2"). vm_compute. reflexivity.
Defined.
End test_server.

(** * ChatComponent.jsx: listeners, sending, room switching *)
Import ChatClient.

Lemma Set_add_elem x y l : y ∈ Set_add x l ↔ y = x ∨ y ∈ l.
Proof.
  unfold Set_add. case_decide as Hx.
  - split; [by right|]. by intros [->|?].
  - rewrite elem_of_app, list_elem_of_singleton. tauto.
Qed.

Lemma Set_delete_elem x y l : y ∈ Set_delete x l ↔ y ≠ x ∧ y ∈ l.
Proof. unfold Set_delete. by rewrite list_elem_of_filter. Qed.

Lemma Set_add_NoDup x l : NoDup l → NoDup (Set_add x l).
Proof.
  intros Hnd. unfold Set_add. case_decide; [done|].
  apply NoDup_app. split_and!; [done| |apply NoDup_singleton].
  by intros y Hy ->%list_elem_of_singleton.
Qed.

Lemma Set_delete_NoDup x l : NoDup l → NoDup (Set_delete x l).
Proof. apply NoDup_filter. Qed.

Lemma last_typing_flag_snoc u events e :
  last_typing_flag u (events ++ [e]) =
  match e with
  | userTyping userId _ isTyping =>
      if decide (userId = u) then Some isTyping else last_typing_flag u events
  | _ => last_typing_flag u events
  end.
Proof.
  unfold last_typing_flag. rewrite omap_app, last_app.
  destruct e; try done. simpl. by case_decide.
Qed.

(** X18: the typing indicator lists a user exactly when the last
    userTyping event about that user said isTyping=true (or, with no such
    event, when the user was listed before); the set never holds a user
    twice.  Other events, a userDisconnected among them, do not take a
    user off the list. *)
Theorem typing_indicator_follows_last_flag
    (c : Chat) (events : list ServerJs.Emitted) (u : string) :
  let c' := foldl listen c events in
  (u ∈ c_typingUsers c' ↔
     match last_typing_flag u events with
     | Some isTyping => isTyping = true
     | None => u ∈ c_typingUsers c
     end) ∧
  (NoDup (c_typingUsers c) → NoDup (c_typingUsers c')).
Proof.
  induction events as [|e events IH] using rev_ind; [done|].
  simpl in *. rewrite foldl_snoc, last_typing_flag_snoc.
  destruct IH as [IHin IHnd]. destruct e; simpl; try done.
  split.
  - destruct isTyping.
    + rewrite Set_add_elem. case_decide as Hu.
      * split; [done|]. intros _. by left.
      * rewrite <- IHin. split; [|by right]. by intros [->|?].
    + rewrite Set_delete_elem. case_decide as Hu.
      * split; [by intros [? _]|done].
      * rewrite <- IHin. split; [by intros [_ ?]|]. by split; [intros ->|].
  - intros Hnd. destruct isTyping; [apply Set_add_NoDup|apply Set_delete_NoDup]; auto.
Qed.

Lemma typing_indicator_follows_last_flag_witness :
  "bob" ∈ c_typingUsers
    (foldl listen new_chat
       [userTyping "bob" "Bob" true; userTyping "carol" "Carol" true;
        userTyping "carol" "Carol" false; userDisconnected "bob" "Bob" []]) ∧
  NoDup (c_typingUsers
    (foldl listen new_chat
       [userTyping "bob" "Bob" true; userTyping "carol" "Carol" true;
        userTyping "carol" "Carol" false; userDisconnected "bob" "Bob" []])).
Proof.
  destruct (typing_indicator_follows_last_flag new_chat
              [userTyping "bob" "Bob" true; userTyping "carol" "Carol" true;
               userTyping "carol" "Carol" false; userDisconnected "bob" "Bob" []] "bob")
    as [Hin Hnd].
  split.
  - apply Hin. reflexivity.
  - apply Hnd. apply NoDup_nil_2.
Defined.

(** X19: sending a message does not stop the typing countdown.  With a
    countdown live and a non-blank input, handleSendMessage emits the
    message with the input as its text, clears the input and emits
    isTyping=false, but leaves the ref and the timer: when the timer fires
    isTyping=false is emitted a second time, and a keystroke before it
    fires emits no isTyping=true.  A blank input sends nothing. *)
Theorem send_leaves_typing_countdown_live
    (c : Chat) (h : positive) (due T : Z) (e : list bool) (userId : string) :
  armed (c_typing c) h due e →
  is_blank (c_inputValue c) = false →
  due ≤ T →
  let c1 := handleSendMessage true true userId c in
  c_outbox c1 = c_outbox c ++
    [emit_sendMessage
       {| md_text := c_inputValue c;
          md_avatar := Some (String.append "https://i.pravatar.cc/150?img=" userId) |}] ∧
  c_inputValue c1 = "" ∧
  armed (c_typing c1) h due (e ++ [false]) ∧
  emitted (c_typing (tick true T c1)) = e ++ [false; false] ∧
  typingTimeoutRef (c_typing (tick true T c1)) = None ∧
  (∀ value now, now < due →
     emitted (c_typing (onInputChange true value now (tick true now c1))) = e ++ [false]) ∧
  (∀ c0 socket connected,
     is_blank (c_inputValue c0) = true →
     handleSendMessage socket connected userId c0 = c0).
Proof.
  intros (Href & Ht & He) Hblank HT c1.
  assert (armed (c_typing c1) h due (e ++ [false])) as Harmed.
  { subst c1. unfold handleSendMessage. rewrite Hblank. simpl.
    unfold armed. simpl. by rewrite Href, Ht, He. }
  split_and!.
  - subst c1. unfold handleSendMessage. by rewrite Hblank.
  - subst c1. unfold handleSendMessage. by rewrite Hblank.
  - done.
  - simpl. destruct (advance_due _ _ _ _ T Harmed HT) as (_ & _ & ->).
    by rewrite <- app_assoc.
  - simpl. by destruct (advance_due _ _ _ _ T Harmed HT) as (-> & _).
  - intros value now Hnow. unfold onInputChange, tick, with_typing. cbn [c_typing].
    by destruct (keystroke_when_armed _ _ _ _ now Harmed Hnow) as (_ & _ & ?).
  - intros c0 socket connected Hb. unfold handleSendMessage. by rewrite Hb.
Qed.

Lemma send_leaves_typing_countdown_live_witness :
  let c := onInputChange true "hi" 100 new_chat in
  emitted (c_typing (tick true 2100 (handleSendMessage true true "bob" c)))
  = [true; false; false].
Proof.
  intros c.
  destruct (send_leaves_typing_countdown_live c 1%positive 2100 2100 [true] "bob")
    as (_ & _ & _ & He & _).
  - vm_compute. done.
  - reflexivity.
  - lia.
  - exact He.
Defined.

(** ** Switching rooms, client and server together *)

Lemma members_on_join st s r r' :
  members r' (on_joinChatRoom st s r) =
  if decide (r' = r) then {[s_id s]} ∪ members r st else members r' st.
Proof.
  unfold on_joinChatRoom, io_to_emit.
  change (members r' (push ?l ?x)) with (members r' x).
  case_decide as Hr; [subst r'; apply members_join|by apply members_join_ne].
Qed.

Lemma members_on_leave st s r r' :
  members r' (on_leaveChatRoom st s r) =
  if decide (r' = r) then members r st ∖ {[s_id s]} else members r' st.
Proof.
  unfold on_leaveChatRoom, io_to_emit.
  change (members r' (push ?l ?x)) with (members r' x).
  case_decide as Hr; [subst r'; apply members_leave|by apply members_leave_ne].
Qed.

Lemma handleJoinRoom_outbox r c :
  c_outbox (handleJoinRoom true r c) =
  c_outbox c ++
    match c_selectedRoom c with
    | Some r1 => if decide (r1 = "") then [] else [emit_leaveChatRoom r1]
    | None => []
    end ++ [emit_joinChatRoom r].
Proof.
  unfold handleJoinRoom, emit. simpl.
  destruct (c_selectedRoom c) as [r1|]; [|done].
  case_decide; [done|]. by rewrite <- app_assoc.
Qed.

Lemma switch_rooms_outbox clicks :
  ∀ c, ∃ l, c_outbox (switch_rooms true clicks c) = c_outbox c ++ l.
Proof.
  induction clicks as [|r clicks IH]; intros c; simpl.
  - exists []. by rewrite app_nil_r.
  - destruct (IH (handleJoinRoom true r c)) as [l Hl].
    unfold switch_rooms in *. rewrite Hl, handleJoinRoom_outbox, <- app_assoc.
    by eexists.
Qed.

Lemma sent_since_trans c c1 c' :
  (∃ l, c_outbox c1 = c_outbox c ++ l) →
  (∃ l, c_outbox c' = c_outbox c1 ++ l) →
  sent_since c c' = sent_since c c1 ++ sent_since c1 c'.
Proof.
  intros [l1 H1] [l2 H2]. unfold sent_since. rewrite H2, H1.
  rewrite <- app_assoc, !drop_app_length. rewrite app_assoc.
  by rewrite drop_app_length.
Qed.

(** One click, processed by the server. *)
Lemma one_click_in_sync (R : list string) (c : Chat) (st : ServerState) (s : Socket) (r : string) :
  s ∈ sockets st →
  "" ∉ R →
  (∀ r0, c_selectedRoom c = Some r0 → r0 ∈ R) →
  r ∈ R →
  in_sync s R c st →
  let c1 := handleJoinRoom true r c in
  ∃ st1, run st (room_inputs s (sent_since c c1)) = Some st1 ∧
    in_sync s R c1 st1 ∧ sockets st1 = sockets st.
Proof.
  intros Hs Hempty Hsel Hr Hsync c1.
  assert (sent_since c c1 =
            match c_selectedRoom c with
            | Some r1 => if decide (r1 = "") then [] else [emit_leaveChatRoom r1]
            | None => []
            end ++ [emit_joinChatRoom r]) as ->.
  { unfold sent_since. subst c1. rewrite handleJoinRoom_outbox. apply drop_app_length. }
  destruct (c_selectedRoom c) as [r1|] eqn:Hc.
  - assert (r1 ∈ R) as Hr1 by by apply Hsel.
    rewrite decide_False by by intros ->.
    assert (sockets (on_leaveChatRoom st s r1) = sockets st) as Hl.
    { by apply (handle_sockets st s (In_leaveChatRoom r1)). }
    cbn [app room_inputs omap run step handle list_omap].
    rewrite decide_True by done.
    rewrite decide_True by by rewrite Hl.
    eexists. split; [done|]. split; [|by rewrite <- Hl].
    intros r' Hr'. rewrite members_on_join. case_decide as Hrr.
    + subst r'. split; [done|]. intros _. apply elem_of_union. left.
      by apply elem_of_singleton.
    + rewrite members_on_leave. case_decide as Hr1'.
      * subst r'. split; [|by intros [= ?]].
        intros [_ Hn]%elem_of_difference. exfalso. apply Hn. by apply elem_of_singleton.
      * rewrite (Hsync r' Hr'), Hc. split; intros [= ?]; congruence.
  - cbn [app room_inputs omap run step handle list_omap].
    rewrite decide_True by done.
    eexists. split; [done|]. split; [|done].
    intros r' Hr'. rewrite members_on_join. case_decide as Hrr.
    + subst r'. split; [done|]. intros _. apply elem_of_union. left.
      by apply elem_of_singleton.
    + rewrite (Hsync r' Hr'), Hc. split; intros [= ?]; congruence.
Qed.

(** X20: switching rooms keeps client and server in step.  The component
    emits leaveChatRoom for the room it shows as selected before it emits
    joinChatRoom for the one clicked.  Starting in step, after any series
    of clicks on its room buttons, once the server has processed what the
    component emitted, the socket is a member of the last room clicked and
    of no other of the buttons' rooms, the component shows that room as
    selected, and its message list has been cleared. *)
Theorem room_switching_keeps_one_room
    (R clicks : list string) (c : Chat) (st : ServerState) (s : Socket) :
  s ∈ sockets st →
  "" ∉ R →
  (∀ r, c_selectedRoom c = Some r → r ∈ R) →
  Forall (λ r, r ∈ R) clicks →
  in_sync s R c st →
  let c' := switch_rooms true clicks c in
  ∃ st', run st (room_inputs s (sent_since c c')) = Some st' ∧
    in_sync s R c' st' ∧
    sockets st' = sockets st ∧
    c_selectedRoom c' =
      match last clicks with Some r => Some r | None => c_selectedRoom c end ∧
    (clicks ≠ [] → c_messages c' = []).
Proof.
  intros Hs Hempty Hsel Hclicks. revert c st Hs Hsel.
  induction Hclicks as [|r clicks Hr Hclicks IH]; intros c st Hs Hsel Hsync; simpl.
  - exists st. unfold sent_since. rewrite drop_all. by split_and!.
  - destruct (one_click_in_sync R c st s r) as (st1 & Hrun1 & Hsync1 & Hs1); [done..|].
    destruct (IH (handleJoinRoom true r c) st1) as (st' & Hrun & Hsync' & Hs' & Hsel' & Hmsg).
    { by rewrite Hs1. }
    { simpl. by intros r0 [= <-]. }
    { done. }
    exists st'. split_and!.
    + rewrite (sent_since_trans c (handleJoinRoom true r c)).
      * unfold room_inputs in *. rewrite omap_app, run_app, Hrun1. exact Hrun.
      * rewrite handleJoinRoom_outbox. by eexists.
      * apply switch_rooms_outbox.
    + done.
    + by rewrite Hs', Hs1.
    + fold (switch_rooms true clicks (handleJoinRoom true r c)).
      rewrite Hsel', last_cons. simpl. by destruct (last clicks).
    + intros _. fold (switch_rooms true clicks (handleJoinRoom true r c)).
      destruct clicks as [|r' clicks']; [done|]. by apply Hmsg.
Qed.

Lemma room_switching_keeps_one_room_witness :
  let c' := switch_rooms true ["general"; "tech"] new_chat in
  ∃ st', run alice_and_bob (room_inputs bob (sent_since new_chat c')) = Some st' ∧
    "b1" ∈ members "tech" st' ∧ "b1" ∉ members "general" st'.
Proof.
  intros c'.
  destruct (room_switching_keeps_one_room room_buttons ["general"; "tech"]
              new_chat alice_and_bob bob) as (st' & Hrun & Hsync & _).
  - by_evaluation.
  - by_evaluation.
  - intros r. discriminate.
  - repeat constructor; by_evaluation.
  - intros r Hr. split; [|discriminate].
    intros Hin. exfalso. revert Hin.
    repeat (apply elem_of_cons in Hr as [->|Hr]; [by_evaluation|]).
    by apply elem_of_nil in Hr.
  - exists st'. split; [exact Hrun|]. split.
    + apply (Hsync "tech"); [by_evaluation|reflexivity].
    + intros Hin. apply (Hsync "general") in Hin; [discriminate|by_evaluation].
Defined.

(** ** Chat, end to end *)

Lemma listen_messages (c : Chat) (events : list ServerJs.Emitted) :
  c_messages (foldl listen c events) =
  c_messages c ++
    omap (λ e, match e with messageReceived m => Some m | _ => None end) events.
Proof.
  induction events as [|e events IH] using rev_ind; simpl.
  - by rewrite app_nil_r.
  - rewrite foldl_snoc, omap_app, app_assoc, <- IH.
    destruct e; simpl; by rewrite ?app_nil_r.
Qed.

Lemma run_sendMessage_inbox sends :
  ∀ st st' k,
    NoDup (ids st) → k ∈ sockets st →
    run st (message_inputs sends) = Some st' →
    ∃ l, delivered st' = delivered st ++ l ∧
         inbox (s_id k) l = messageReceived ∘ sent_message <$> sends.
Proof.
  induction sends as [|[[s [now date]] md] sends IH]; intros st st' k Hnd Hk; simpl.
  - intros [= <-]. exists []. by rewrite app_nil_r.
  - case_decide as Hs; [|done]. intros Hrun.
    destruct (IH (on_sendMessage st s now date md) st' k Hnd Hk Hrun) as (l & Hl & Hin).
    simpl in Hl.
    eexists. rewrite Hl, <- app_assoc. split; [done|].
    rewrite inbox_app, Hin. f_equal.
    by rewrite (inbox_to_all_present k _ (sockets st)).
Qed.

(** X21: chat end to end.  After the server has processed a sequence of
    sendMessage events, a connected client whose component handles what
    its socket was sent in that time shows its earlier messages followed
    by one message per event, in the order the server processed them,
    each with the sender's text. *)
Theorem chat_shows_messages_in_processing_order
    (st st' : ServerState) (sends : list (Socket * (Z * Z) * MessageData))
    (k : Socket) (c : Chat) :
  NoDup (ids st) →
  k ∈ sockets st →
  run st (message_inputs sends) = Some st' →
  let c' := foldl listen c (inbox (s_id k) (emitted_by st st')) in
  c_messages c' = c_messages c ++ (sent_message <$> sends) ∧
  m_text <$> c_messages c' = (m_text <$> c_messages c) ++ ((λ x, md_text x.2) <$> sends).
Proof.
  intros Hnd Hk Hrun c'.
  destruct (run_sendMessage_inbox sends st st' k Hnd Hk Hrun) as (l & Hl & Hin).
  assert (c_messages c' = c_messages c ++ (sent_message <$> sends)) as Hm.
  { subst c'. unfold emitted_by. rewrite Hl, drop_app_length, Hin, listen_messages.
    f_equal. clear. induction sends as [|x sends IH]; [done|].
    rewrite !fmap_cons. simpl. f_equal. exact IH. }
  split; [done|]. rewrite Hm, fmap_app. f_equal.
  clear. induction sends as [|x sends IH]; [done|].
  rewrite !fmap_cons. by rewrite IH.
Qed.

Lemma chat_shows_messages_in_processing_order_witness :
  let sends := [(alice_tab1, (1, 2), {| md_text := "hi"; md_avatar := None |});
                (bob, (3, 4), {| md_text := "hello"; md_avatar := None |})] in
  let st' := default initial (run alice_and_bob (message_inputs sends)) in
  m_text <$> c_messages (foldl listen new_chat (inbox "b1" (emitted_by alice_and_bob st')))
  = ["hi"; "hello"].
Proof.
  intros sends st'.
  destruct (chat_shows_messages_in_processing_order alice_and_bob st' sends bob new_chat)
    as [_ H].
  - by_evaluation.
  - by_evaluation.
  - vm_compute. reflexivity.
  - exact H.
Defined.

(** * NotificationComponent.jsx *)
Import NotificationComponent.

Lemma remove_due_ids (T : Z) (es : list (Z * Z)) :
  ∀ l : list Notification,
    foldl (λ l e, if decide (e.1 ≤ T) then remove_id e.2 l else l) l es =
    filter (λ n, n_id n ∉ (filter (λ e, e.1 ≤ T) es).*2) l.
Proof.
  induction es as [|e es IH]; intros l; simpl.
  - symmetry. induction l as [|n l IHl]; [done|].
    rewrite filter_cons_True by apply not_elem_of_nil. by rewrite IHl.
  - rewrite IH. destruct (decide (e.1 ≤ T)) as [Hdue|Hlater].
    + rewrite filter_cons_True by done. unfold remove_id.
      rewrite list_filter_filter. apply list_filter_iff. intros n.
      rewrite fmap_cons, not_elem_of_cons. tauto.
    + by rewrite filter_cons_False.
Qed.

(** X22: when the clock reaches T, the timeouts due by then remove every
    notification whose id equals the id of one of them, whichever
    notification set the timeout, and the others stay in the order they
    had; the timeouts not yet due stay pending. *)
Theorem expire_removes_by_id (T : Z) (t : Toasts) :
  notifications (expire T t) =
    filter (λ n, n_id n ∉ (filter (λ e, e.1 ≤ T) (expiries t)).*2) (notifications t) ∧
  expiries (expire T t) = filter (λ e, ¬ e.1 ≤ T) (expiries t).
Proof. split; [apply remove_due_ids|done]. Qed.

Lemma expire_covered T t : covered t → covered (expire T t).
Proof.
  intros Hc n. simpl. rewrite remove_due_ids.
  intros [Hnot Hin]%list_elem_of_filter.
  apply Hc, list_elem_of_fmap in Hin as ([due id] & Hid & He). simpl in Hid.
  apply list_elem_of_fmap. exists (due, id). split; [done|].
  apply list_elem_of_filter. split; [|done]. simpl. intros Hdue.
  apply Hnot, list_elem_of_fmap. exists (due, id). split; [done|].
  by apply list_elem_of_filter.
Qed.

Lemma play_covered inputs :
  ∀ t, covered t → covered (play inputs t).
Proof.
  induction inputs as [|[now n|now id] inputs IH]; intros t Hc; simpl; [done|..].
  - apply IH. intros n'. simpl. rewrite fmap_app, elem_of_app.
    intros [->|Hin]%elem_of_cons.
    + right. by apply list_elem_of_singleton.
    + left. by apply (expire_covered now t Hc).
  - apply IH. intros n'. simpl. unfold remove_id.
    intros [_ Hin]%list_elem_of_filter. by apply (expire_covered now t Hc).
Qed.

Lemma play_expiries inputs :
  ∀ t e, e ∈ expiries (play inputs t) →
    e ∈ expiries t ∨ ∃ now n, Arrives now n ∈ inputs ∧ e = (now + 5000, n_id n).
Proof.
  induction inputs as [|[now n|now id] inputs IH]; intros t e; simpl; [by left|..].
  - intros [Hin|(now' & n' & Hin & ->)]%IH.
    + simpl in Hin. apply elem_of_app in Hin as [[_ Hin]%list_elem_of_filter|Hin].
      * by left.
      * apply list_elem_of_singleton in Hin as ->. right. exists now, n.
        split; [|done]. apply elem_of_cons. by left.
    + right. exists now', n'. split; [|done]. apply elem_of_cons. by right.
  - intros [Hin|(now' & n' & Hin & ->)]%IH.
    + simpl in Hin. apply list_elem_of_filter in Hin as [_ Hin]. by left.
    + right. exists now', n'. split; [|done]. apply elem_of_cons. by right.
Qed.

(** X23: no notification outlives its five seconds.  Whatever arrives
    and whatever is closed by hand, once the clock has passed every
    arrival by 5000 ms the list is empty and no timeout is pending. *)
Theorem notifications_all_expire (inputs : list ToastInput) (T : Z) :
  (∀ now n, Arrives now n ∈ inputs → now + 5000 ≤ T) →
  notifications (expire T (play inputs no_toasts)) = [] ∧
  expiries (expire T (play inputs no_toasts)) = [].
Proof.
  intros Hlate.
  assert (∀ e, e ∈ expiries (play inputs no_toasts) → e.1 ≤ T) as Hdue.
  { intros e [Hin|(now & n & Hin & ->)]%play_expiries.
    - by apply elem_of_nil in Hin.
    - simpl. by eapply Hlate. }
  assert (covered (play inputs no_toasts)) as Hc.
  { apply play_covered. by intros n ?%elem_of_nil. }
  split.
  - simpl. rewrite remove_due_ids. apply elem_of_nil_inv. intros n.
    intros [Hnot Hin]%list_elem_of_filter. apply Hnot.
    apply Hc, list_elem_of_fmap in Hin as (e & Hid & He).
    apply list_elem_of_fmap. exists e. split; [done|].
    apply list_elem_of_filter. split; [by apply Hdue|done].
  - simpl. apply elem_of_nil_inv. intros e [Hn Hin]%list_elem_of_filter.
    by apply Hn, Hdue.
Qed.

Lemma notifications_all_expire_witness :
  notifications
    (expire 6000
       (play [Arrives 0 (make_notification alice_tab1 1 2 to_bob);
              Arrives 1000 (make_notification alice_tab1 1 3 to_bob);
              Closes 1500 1]
             no_toasts)) = [].
Proof.
  destruct (notifications_all_expire
              [Arrives 0 (make_notification alice_tab1 1 2 to_bob);
               Arrives 1000 (make_notification alice_tab1 1 3 to_bob);
               Closes 1500 1] 6000) as [H _].
  - intros now n [Hin|[Hin|[Hin|Hin%elem_of_nil]%elem_of_cons]%elem_of_cons]%elem_of_cons;
      [injection Hin as -> _; lia..|discriminate|done].
  - exact H.
Defined.

(** * useSocket.js *)

(** X24: the hook opens at most one connection and never replaces it.
    Over any series of renders, the ref holds a socket afterwards exactly
    when some render ran the effect with a non-empty token; an effect
    that finds a socket in the ref keeps it, whatever the token is then. *)
Theorem socket_created_once (tokens : list (option string)) :
  let ref := foldl (λ r token, UseSocket.useEffect token r) None tokens in
  (ref = Some UseSocket.options ↔ ∃ t, Some t ∈ tokens ∧ t ≠ "") ∧
  (ref = None ↔ ∀ t, Some t ∈ tokens → t = "") ∧
  (∀ o token, UseSocket.useEffect token (Some o) = Some o).
Proof.
  assert (∀ l o, foldl (λ r token, UseSocket.useEffect token r) (Some o) l = Some o) as Hkeep.
  { induction l as [|token l IH]; intros o; simpl; [done|].
    by rewrite useEffect_keeps_socket. }
  simpl. split_and!; [| |intros; apply useEffect_keeps_socket].
  - induction tokens as [|token tokens IH]; simpl.
    + split; [done|]. by intros (t & ?%elem_of_nil & _).
    + destruct token as [t|]; simpl.
      * destruct (decide (t = "")) as [->|Hne].
        -- rewrite IH. split; intros (t & Hin & Hne); exists t; (split; [|done]).
           ++ apply elem_of_cons. by right.
           ++ apply elem_of_cons in Hin as [[= ->]|?]; done.
        -- rewrite Hkeep. split; [|done]. intros _. exists t. split; [|done].
           apply elem_of_cons. by left.
      * rewrite IH. split; intros (t & Hin & Hne); exists t; (split; [|done]).
        -- apply elem_of_cons. by right.
        -- by apply elem_of_cons in Hin as [?|?].
  - induction tokens as [|token tokens IH]; simpl.
    + split; [|done]. by intros _ t ?%elem_of_nil.
    + destruct token as [t|]; simpl.
      * destruct (decide (t = "")) as [->|Hne].
        -- rewrite IH. split; intros H t Hin.
           ++ apply elem_of_cons in Hin as [[= ->]|?]; [done|by apply H].
           ++ apply H. apply elem_of_cons. by right.
        -- rewrite Hkeep. split; [done|]. intros H. exfalso. apply Hne, H.
           apply elem_of_cons. by left.
      * rewrite IH. split; intros H t Hin.
        -- apply elem_of_cons in Hin as [?|?]; [done|by apply H].
        -- apply H. apply elem_of_cons. by right.
Qed.
